(** * heatpump: capture.py and send.py

    Two scripts drive a Broadlink remote over the network.  [capture.py]
    arms learning mode, polls the device and prints every captured code as
    hexadecimal text; [send.py] reads hexadecimal lines from standard input
    and transmits them.

    The development has three layers:
    - Python text and byte values with the builtins the scripts call
      ([format(x, '02x')], [''.join], [str.rstrip], [bytearray.fromhex]);
    - the two scripts as interaction trees over the events they perform
      (device calls, sleeping, printing, flushing, reading a line);
    - an executable runner that plays a script against a model of the
      device and of standard input and records the trace of events. *)

From Stdlib Require Import List Arith NArith Bool Lia QArith.
From Stdlib.Strings Require Import String Ascii Byte.
From ITree Require Import ITree ITreeFacts Events.Exception.
Import ListNotations.
Import ITreeNotations.

Local Open Scope N_scope.
Local Open Scope list_scope.
Local Open Scope itree_scope.

(* ===================================================================== *)
(** * Python values *)
(* ===================================================================== *)

Module Py.

(** A Python [str] is a sequence of Unicode code points. *)
Definition char := N.
Definition str := list char.

(** A [bytes] or [bytearray] value: every element is an int in 0..255. *)
Definition bytes := list byte.

(** String literals of the scripts, written with Rocq's 8-bit strings. *)
Definition lit (s : string) : str :=
  List.map N_of_ascii (list_ascii_of_string s).

(** ** [format(x, '02x')]

    Lowercase hexadecimal digits of a non-negative int, most significant
    first, padded on the left with ['0'] to a width of at least two. *)

Definition hex_digit (d : N) : char :=
  if d <? 10 then 48 + d else 87 + d.

Fixpoint hex_digits (fuel : nat) (x : N) (acc : str) : str :=
  match fuel with
  | O => acc
  | S fuel' =>
      let acc' := hex_digit (x mod 16) :: acc in
      if x / 16 =? 0 then acc' else hex_digits fuel' (x / 16) acc'
  end.

(** [format(x, 'x')]: a number of [N.size x] bits has at most that many
    hexadecimal digits, so the fuel never runs out. *)
Definition format_x (x : N) : str :=
  hex_digits (S (N.to_nat (N.size x))) x [].

Definition format_02x (x : N) : str :=
  let s := format_x x in
  List.repeat 48 (2 - List.length s) ++ s.

(** [''.join(parts)]. *)
Definition join (parts : list str) : str := List.concat parts.

(** ** [str.rstrip()]

    With no argument, [rstrip] removes trailing characters for which
    [str.isspace] holds (CPython's [Py_UNICODE_ISSPACE]). *)

Definition isspace (c : char) : bool :=
  ((9 <=? c) && (c <=? 13)) || ((28 <=? c) && (c <=? 32))
  || (c =? 133) || (c =? 160) || (c =? 5760)
  || ((8192 <=? c) && (c <=? 8202))
  || (c =? 8232) || (c =? 8233) || (c =? 8239) || (c =? 8287)
  || (c =? 12288).

Fixpoint rstrip (s : str) : str :=
  match s with
  | [] => []
  | c :: s' =>
      match rstrip s' with
      | [] => if isspace c then [] else [c]
      | r => c :: r
      end
  end.

(** ** [bytearray.fromhex(s)]

    "The string must contain two hexadecimal digits per byte, with ASCII
    whitespace being ignored."  Whitespace is skipped before a pair, never
    inside one.  A character that is not a hexadecimal digit, or a first
    digit without a second one, raises [ValueError]: the result is [None]. *)

(** ASCII whitespace, CPython's [Py_ISSPACE]. *)
Definition ascii_isspace (c : char) : bool :=
  ((9 <=? c) && (c <=? 13)) || (c =? 32).

(** Value of a character as a digit in bases up to 36 (CPython's
    [_PyLong_DigitValue]); 37 for every other character. *)
Definition digit_value (c : char) : N :=
  if (48 <=? c) && (c <=? 57) then c - 48
  else if (97 <=? c) && (c <=? 122) then c - 87
  else if (65 <=? c) && (c <=? 90) then c - 55
  else 37.

(** The byte [(unsigned char)((top << 4) + bot)]. *)
Definition byte_of_nibbles (top bot : N) : byte :=
  byte_of_ascii (ascii_of_N (N.shiftl top 4 + bot)).

Fixpoint fromhex (s : str) : option bytes :=
  match s with
  | [] => Some []
  | c :: s' =>
      if ascii_isspace c then fromhex s'
      else
        let top := digit_value c in
        if 16 <=? top then None
        else
          match s' with
          | [] => None
          | d :: s'' =>
              let bot := digit_value d in
              if 16 <=? bot then None
              else
                match fromhex s'' with
                | Some bs => Some (byte_of_nibbles top bot :: bs)
                | None => None
                end
          end
  end.

(** ASCII case folding, used to state that decoding ignores letter case. *)
Definition ascii_lower (c : char) : char :=
  if (65 <=? c) && (c <=? 90) then c + 32 else c.

Definition ascii_upper (c : char) : char :=
  if (97 <=? c) && (c <=? 122) then c - 32 else c.

End Py.

Import Py.

(** The expression of capture.py line 16:
    [''.join(format(x, '02x') for x in bytearray(data))]. *)
Definition hexdata (data : bytes) : str :=
  join (List.map (fun x => format_02x (Byte.to_N x)) data).


(* ===================================================================== *)
(** * The scripts as interaction trees *)
(* ===================================================================== *)

(** Exceptions a script can see.  [StorageError] is
    [broadlink.exceptions.StorageError], the only class capture.py names;
    [ValueError] is what [bytearray.fromhex] raises; [Exception name]
    stands for any other class. *)
Variant exn : Type :=
| StorageError
| ValueError
| Exception (name : string).

(** The object that [broadlink.hello] returns. *)
Definition device := N.

(** Calls into the broadlink library.  Each one either raises or returns. *)
Variant broadlinkE : Type -> Type :=
| hello (host : str) : broadlinkE (exn + device)
| auth (dev : device) : broadlinkE (exn + unit)
| enter_learning (dev : device) : broadlinkE (exn + unit)
| check_data (dev : device) : broadlinkE (exn + bytes)
| send_data (dev : device) (data : bytes) : broadlinkE (exn + unit).

(** [time.sleep], [print], [sys.stdout.flush], and one step of the
    iteration over [sys.stdin] ([None] at the end of the stream). *)
Variant sysE : Type -> Type :=
| sleep (secs : Q) : sysE unit
| print (s : str) : sysE unit
| flush : sysE unit
| readline : sysE (option str).

Definition E := broadlinkE +' sysE +' exceptE exn.

(** A library call outside any [try]: an exception it raises propagates. *)
Definition call {V} (e : broadlinkE (exn + V)) : itree E V :=
  r <- trigger e;;
  match r with
  | inl err => throw err
  | inr v => Ret v
  end.

Definition host : str := lit "192.168.1.235".

(** capture.py, lines 9-19: one turn of [while True]. *)
Definition capture_body (dev : device) : itree E unit :=
  r <- trigger (check_data dev);;
  match r return itree E unit with
  | inl StorageError =>
      trigger (sleep (1 # 2))
  | inl err => throw err
  | inr data =>
      let hexdata := hexdata data in
      trigger (print hexdata);;
      trigger flush;;
      call (enter_learning dev)
  end.

Definition capture_loop (dev : device) : itree E void :=
  ITree.forever (capture_body dev).

(** capture.py. *)
Definition capture : itree E void :=
  dev <- call (hello host);;
  call (auth dev);;
  call (enter_learning dev);;
  capture_loop dev.

(** send.py, lines 8-11: one turn of [for line in sys.stdin]. *)
Definition send_body (dev : device) (_ : unit) : itree E (unit + unit) :=
  next <- trigger readline;;
  match next with
  | None => Ret (inr tt)
  | Some line =>
      match fromhex (rstrip line) with
      | None => throw ValueError
      | Some data =>
          call (send_data dev data);;
          trigger (print (lit "Sent"));;
          Ret (inl tt)
      end
  end.

Definition send_loop (dev : device) : itree E unit :=
  ITree.iter (send_body dev) tt.

(** send.py. *)
Definition send : itree E unit :=
  dev <- call (hello host);;
  call (auth dev);;
  send_loop dev.

(* ===================================================================== *)
(** * Running a script *)
(* ===================================================================== *)

(** What an observer of the process sees, in order. *)
Variant event : Type :=
| Ehello (host : str) (r : exn + device)
| Eauth (dev : device) (r : exn + unit)
| Eenter_learning (dev : device) (r : exn + unit)
| Echeck_data (dev : device) (r : exn + bytes)
| Esend_data (dev : device) (data : bytes) (r : exn + unit)
| Esleep (secs : Q)
| Eprint (s : str)
| Eflush
| Ereadline (next : option str).

(** How a process stands when observation stops. *)
Variant outcome (R : Type) : Type :=
| Returned (r : R)      (* the script ran to its end *)
| Raised (err : exn)    (* an exception reached the top level *)
| Running.              (* still going *)
Arguments Returned {R} r.
Arguments Raised {R} err.
Arguments Running {R}.

(** Exit status of the interpreter: 0 after the last statement, 1 after
    an uncaught exception. *)
Definition exit_code {R} (o : outcome R) : option N :=
  match o with
  | Returned _ => Some 0
  | Raised _ => Some 1
  | Running => None
  end.

Definition log {T} (e : broadlinkE T) : T -> event :=
  match e in broadlinkE T return T -> event with
  | hello h => Ehello h
  | auth dev => Eauth dev
  | enter_learning dev => Eenter_learning dev
  | check_data dev => Echeck_data dev
  | send_data dev data => Esend_data dev data
  end.

Section Run.

(** The environment: a model of the device, with a state of type [D] and
    an answer to every call, and the lines waiting on standard input. *)
Variable D : Type.
Variable respond : forall T, broadlinkE T -> D -> T * D.

Record world : Type := World { dev_state : D; stdin : list str }.

(** The environment's answer to one event: the observation, the value
    handed back to the script and the next world; or the exception of a
    [raise]. *)
Definition answer {X} (e : E X) (w : world) : (event * X * world) + exn :=
  match e with
  | inl1 b =>
      let '(r, d) := respond _ b (dev_state w) in
      inl (log b r, r, World d (stdin w))
  | inr1 (inl1 s) =>
      match s in sysE X return (event * X * world) + exn with
      | sleep secs => inl (Esleep secs, tt, w)
      | print s => inl (Eprint s, tt, w)
      | flush => inl (Eflush, tt, w)
      | readline =>
          match stdin w with
          | [] => inl (Ereadline None, None, w)
          | line :: rest =>
              inl (Ereadline (Some line), Some line, World (dev_state w) rest)
          end
      end
  | inr1 (inr1 (Throw err)) => inr err
  end.

(** [run fuel t w] performs at most [fuel] steps of [t] in world [w] and
    returns the events observed and how the process stands. *)
Fixpoint run {R} (fuel : nat) (t : itree E R) (w : world)
  : list event * outcome R :=
  match observe t with
  | RetF r => ([], Returned r)
  | TauF t' =>
      match fuel with
      | O => ([], Running)
      | S fuel' => run fuel' t' w
      end
  | VisF e k =>
      match answer e w with
      | inr err => ([], Raised err)
      | inl (ev, x, w') =>
          match fuel with
          | O => ([], Running)
          | S fuel' =>
              let '(tr, o) := run fuel' (k x) w' in (ev :: tr, o)
          end
      end
  end.

End Run.

Arguments World {D} dev_state stdin.
Arguments dev_state {D} w.
Arguments stdin {D} w.
Arguments answer {D} respond {X} e w.
Arguments run {D} respond {R} fuel t w.

(** One observable step and one silent step of the runner, in the shape
    the equations of the two loops are stated in. *)
Definition emit {R} (fuel : nat) (ev : event)
    (k : nat -> list event * outcome R) : list event * outcome R :=
  match fuel with
  | O => ([], Running)
  | S fuel' => let '(tr, o) := k fuel' in (ev :: tr, o)
  end.

Definition silent {R} (fuel : nat)
    (k : nat -> list event * outcome R) : list event * outcome R :=
  match fuel with
  | O => ([], Running)
  | S fuel' => k fuel'
  end.

(** [sys.stdin] as the loop of send.py sees it: the text cut after every
    newline (code point 10), the newline kept with its line. *)
Fixpoint lines_from (cur : str) (text : str) : list str :=
  match text with
  | [] => match cur with [] => [] | _ => [List.rev cur] end
  | c :: text' =>
      if c =? 10 then List.rev (c :: cur) :: lines_from [] text'
      else lines_from (c :: cur) text'
  end.

Definition stdin_lines (text : str) : list str := lines_from [] text.

(** ** Projections of a trace *)

(** Lines written to standard output. *)
Fixpoint printed (tr : list event) : list str :=
  match tr with
  | [] => []
  | Eprint s :: tr' => s :: printed tr'
  | _ :: tr' => printed tr'
  end.

(** Payloads handed to [send_data], whether the call returned or raised. *)
Fixpoint sent (tr : list event) : list bytes :=
  match tr with
  | [] => []
  | Esend_data _ data _ :: tr' => data :: sent tr'
  | _ :: tr' => sent tr'
  end.

(** Codes returned by [check_data]. *)
Fixpoint captured (tr : list event) : list bytes :=
  match tr with
  | [] => []
  | Echeck_data _ (inr data) :: tr' => data :: captured tr'
  | _ :: tr' => captured tr'
  end.

(** Number of calls of [enter_learning]. *)
Fixpoint arms (tr : list event) : nat :=
  match tr with
  | [] => O
  | Eenter_learning _ _ :: tr' => S (arms tr')
  | _ :: tr' => arms tr'
  end.

(** Number of calls of [check_data]. *)
Fixpoint polls (tr : list event) : nat :=
  match tr with
  | [] => O
  | Echeck_data _ _ :: tr' => S (polls tr')
  | _ :: tr' => polls tr'
  end.

(** Lines taken from standard input. *)
Fixpoint lines_read (tr : list event) : list str :=
  match tr with
  | [] => []
  | Ereadline (Some line) :: tr' => line :: lines_read tr'
  | _ :: tr' => lines_read tr'
  end.

(** The exception a library call raised, if the event is one that did. *)
Definition raised (ev : event) : option exn :=
  match ev with
  | Ehello _ (inl err) | Eauth _ (inl err) | Eenter_learning _ (inl err)
  | Echeck_data _ (inl err) | Esend_data _ _ (inl err) => Some err
  | _ => None
  end.

(* ===================================================================== *)
(** * The formats and protocols of the specification *)
(* ===================================================================== *)

(** ** Regular expressions over code points *)

Inductive regex : Type :=
| Class (p : char -> bool)      (* one character of a class *)
| Cat (r1 r2 : regex)
| Alt (r1 r2 : regex)
| Star (r : regex).

Inductive matches : regex -> str -> Prop :=
| m_class p c : p c = true -> matches (Class p) [c]
| m_cat r1 r2 s1 s2 :
    matches r1 s1 -> matches r2 s2 -> matches (Cat r1 r2) (s1 ++ s2)
| m_alt_l r1 r2 s : matches r1 s -> matches (Alt r1 r2) s
| m_alt_r r1 r2 s : matches r2 s -> matches (Alt r1 r2) s
| m_star_nil r : matches (Star r) []
| m_star_app r s1 s2 :
    matches r s1 -> matches (Star r) s2 -> matches (Star r) (s1 ++ s2).

(** [[0-9a-f]] and [[0-9a-fA-F]]. *)
Definition lower_hex (c : char) : bool :=
  ((48 <=? c) && (c <=? 57)) || ((97 <=? c) && (c <=? 102)).

Definition any_hex (c : char) : bool :=
  lower_hex c || ((65 <=? c) && (c <=? 70)).

(** [^([0-9a-f]{2})*$] *)
Definition hex_pairs : regex :=
  Star (Cat (Class lower_hex) (Class lower_hex)).

(** [^[0-9a-f]+$] *)
Definition hex_line : regex :=
  Cat (Class lower_hex) (Star (Class lower_hex)).

(** What [bytearray.fromhex] accepts: pairs of hexadecimal digits of
    either case, with ASCII whitespace before, between and after them. *)
Definition hex_input : regex :=
  Star (Alt (Class ascii_isspace) (Cat (Class any_hex) (Class any_hex))).

(** The condition under which the specification lets decoding fail: the
    text has odd length or holds a character that is no hexadecimal
    digit. *)
Definition odd_or_nonhex (text : str) : Prop :=
  Nat.odd (List.length text) = true \/
  exists c, List.In c text /\ any_hex c = false.

(** ** Labelled transition systems *)

Section LTS.

Variable state : Type.
Variable step : state -> event -> state -> Prop.

(** [steps s tr s']: the protocol, in state [s], allows the events [tr]
    in this order and is then in state [s']. *)
Inductive steps : state -> list event -> state -> Prop :=
| steps_nil s : steps s [] s
| steps_cons s ev s1 tr s' :
    step s ev s1 -> steps s1 tr s' -> steps s (ev :: tr) s'.

End LTS.
Arguments steps {state} step s tr s'.
Arguments steps_nil {state step} s.
Arguments steps_cons {state step} s ev s1 tr s'.

(** ** The capture protocol

    "idle -> armed -> (waiting | captured)": after the handshake the device
    is armed; an empty poll leads through a wait of half a second back to
    the armed state without arming again; a captured code is printed,
    flushed, and only then is the device armed again.  Any exception other
    than the empty poll ends the run. *)

Variant cstate : Type :=
| CStart
| CConnected (dev : device)
| CAuthed (dev : device)
| CArmed (dev : device)
| CWaiting (dev : device)
| CCaptured (dev : device) (data : bytes)
| CPrinted (dev : device)
| CFlushed (dev : device)
| CFailed (err : exn).

Inductive cstep : cstate -> event -> cstate -> Prop :=
| c_hello dev :
    cstep CStart (Ehello host (inr dev)) (CConnected dev)
| c_hello_fail err :
    cstep CStart (Ehello host (inl err)) (CFailed err)
| c_auth dev :
    cstep (CConnected dev) (Eauth dev (inr tt)) (CAuthed dev)
| c_auth_fail dev err :
    cstep (CConnected dev) (Eauth dev (inl err)) (CFailed err)
| c_arm dev :
    cstep (CAuthed dev) (Eenter_learning dev (inr tt)) (CArmed dev)
| c_arm_fail dev err :
    cstep (CAuthed dev) (Eenter_learning dev (inl err)) (CFailed err)
| c_poll_empty dev :
    cstep (CArmed dev) (Echeck_data dev (inl StorageError)) (CWaiting dev)
| c_poll_fail dev err :
    err <> StorageError ->
    cstep (CArmed dev) (Echeck_data dev (inl err)) (CFailed err)
| c_poll_data dev data :
    cstep (CArmed dev) (Echeck_data dev (inr data)) (CCaptured dev data)
| c_wait dev :
    cstep (CWaiting dev) (Esleep (1 # 2)) (CArmed dev)
| c_print dev data :
    cstep (CCaptured dev data) (Eprint (hexdata data)) (CPrinted dev)
| c_flush dev :
    cstep (CPrinted dev) Eflush (CFlushed dev)
| c_rearm dev :
    cstep (CFlushed dev) (Eenter_learning dev (inr tt)) (CArmed dev)
| c_rearm_fail dev err :
    cstep (CFlushed dev) (Eenter_learning dev (inl err)) (CFailed err).

(** How the process stands in each protocol state. *)
Definition cstanding (s : cstate) (o : outcome void) : Prop :=
  match s with
  | CFailed err => o = Raised err
  | _ => o = Running
  end.

(** ** The send protocol

    "idle -> reading -> sending -> idle", once per line.  The idle state
    holds the lines still waiting on standard input. *)

Variant sstate : Type :=
| SStart (lines : list str)
| SConnected (dev : device) (lines : list str)
| SIdle (dev : device) (lines : list str)
| SDecoded (dev : device) (data : bytes) (lines : list str)
| SSent (dev : device) (lines : list str)
| SFinished
| SFailed (err : exn).

Inductive sstep : sstate -> event -> sstate -> Prop :=
| s_hello dev lines :
    sstep (SStart lines) (Ehello host (inr dev)) (SConnected dev lines)
| s_hello_fail err lines :
    sstep (SStart lines) (Ehello host (inl err)) (SFailed err)
| s_auth dev lines :
    sstep (SConnected dev lines) (Eauth dev (inr tt)) (SIdle dev lines)
| s_auth_fail dev err lines :
    sstep (SConnected dev lines) (Eauth dev (inl err)) (SFailed err)
| s_read dev line data lines :
    fromhex (rstrip line) = Some data ->
    sstep (SIdle dev (line :: lines)) (Ereadline (Some line))
          (SDecoded dev data lines)
| s_read_bad dev line lines :
    fromhex (rstrip line) = None ->
    sstep (SIdle dev (line :: lines)) (Ereadline (Some line))
          (SFailed ValueError)
| s_eof dev :
    sstep (SIdle dev []) (Ereadline None) SFinished
| s_send dev data lines :
    sstep (SDecoded dev data lines) (Esend_data dev data (inr tt))
          (SSent dev lines)
| s_send_fail dev data err lines :
    sstep (SDecoded dev data lines) (Esend_data dev data (inl err))
          (SFailed err)
| s_confirm dev lines :
    sstep (SSent dev lines) (Eprint (lit "Sent")) (SIdle dev lines).

Definition sstanding (s : sstate) (o : outcome unit) : Prop :=
  match s with
  | SFinished => o = Returned tt
  | SFailed err => o = Raised err
  | _ => o = Running
  end.

(* ===================================================================== *)
(** * A simulated device *)
(* ===================================================================== *)

(** A test double for the device handle.  Its state is the list of
    answers [check_data] still has to give, in order; once the list is
    used up nothing more is captured and every poll finds the storage
    empty.  [hello] returns handle 0 and every other call succeeds. *)
Definition simulated (T : Type) (e : broadlinkE T)
    (script : list (exn + bytes)) : T * list (exn + bytes) :=
  match e in broadlinkE T return T * list (exn + bytes) with
  | hello _ => (inr 0, script)
  | auth _ => (inr tt, script)
  | enter_learning _ => (inr tt, script)
  | check_data _ =>
      match script with
      | [] => (inl StorageError, [])
      | r :: script' => (r, script')
      end
  | send_data _ _ => (inr tt, script)
  end.

(** A device that is not reachable: every call raises. *)
Definition unreachable (T : Type) (e : broadlinkE T) (d : unit) : T * unit :=
  match e in broadlinkE T return T * unit with
  | hello _ => (inl (Exception "NetworkTimeoutError"), d)
  | auth _ => (inl (Exception "NetworkTimeoutError"), d)
  | enter_learning _ => (inl (Exception "NetworkTimeoutError"), d)
  | check_data _ => (inl (Exception "NetworkTimeoutError"), d)
  | send_data _ _ => (inl (Exception "NetworkTimeoutError"), d)
  end.

(** A run conforms to a protocol from state [s] when the protocol allows
    its events and the process stands as the state reached says. *)
Definition conforms {state R : Type} (step : state -> event -> state -> Prop)
    (standing : state -> outcome R -> Prop) (s : state)
    (res : list event * outcome R) : Prop :=
  exists s', steps step s (fst res) s' /\ standing s' (snd res).

(** ** What a protocol state says about the events so far *)

Definition quiet (tr : list event) : Prop :=
  List.Forall (fun ev => raised ev = None) tr.

(** Capture: one line per captured code, in order, and one call of
    [enter_learning] more than lines printed while the device is armed. *)
Definition capture_history (tr : list event) (s : cstate) : Prop :=
  match s with
  | CStart | CConnected _ | CAuthed _ =>
      arms tr = O /\ printed tr = [] /\ captured tr = []
  | CArmed _ | CWaiting _ =>
      arms tr = S (List.length (printed tr)) /\
      printed tr = List.map hexdata (captured tr)
  | CCaptured _ data =>
      arms tr = S (List.length (printed tr)) /\
      exists codes,
        captured tr = codes ++ [data] /\ printed tr = List.map hexdata codes
  | CPrinted _ | CFlushed _ =>
      arms tr = List.length (printed tr) /\
      printed tr = List.map hexdata (captured tr)
  | CFailed _ =>
      (arms tr <= S (List.length (printed tr)))%nat /\
      (List.length (printed tr) <= arms tr)%nat /\
      printed tr = List.map hexdata (captured tr)
  end.

(** Send: the lines read are the first lines of the input, each one read
    has been decoded, sent and confirmed before the next is read. *)
Definition send_history (inp : list str) (tr : list event) (s : sstate)
  : Prop :=
  match s with
  | SStart l | SConnected _ l =>
      l = inp /\ quiet tr /\
      lines_read tr = [] /\ sent tr = [] /\ printed tr = []
  | SIdle _ l =>
      inp = lines_read tr ++ l /\ quiet tr /\
      List.map Some (sent tr) =
        List.map (fun line => fromhex (rstrip line)) (lines_read tr) /\
      printed tr = List.repeat (lit "Sent") (List.length (lines_read tr))
  | SSent _ l =>
      inp = lines_read tr ++ l /\ quiet tr /\
      List.map Some (sent tr) =
        List.map (fun line => fromhex (rstrip line)) (lines_read tr) /\
      printed tr ++ [lit "Sent"] =
        List.repeat (lit "Sent") (List.length (lines_read tr))
  | SDecoded _ data l =>
      quiet tr /\
      exists done line,
        lines_read tr = done ++ [line] /\ inp = done ++ line :: l /\
        fromhex (rstrip line) = Some data /\
        List.map Some (sent tr) =
          List.map (fun line => fromhex (rstrip line)) done /\
        printed tr = List.repeat (lit "Sent") (List.length done)
  | SFinished =>
      inp = lines_read tr /\ quiet tr /\
      List.map Some (sent tr) =
        List.map (fun line => fromhex (rstrip line)) (lines_read tr) /\
      printed tr = List.repeat (lit "Sent") (List.length (lines_read tr))
  | SFailed _ =>
      (exists rest, inp = lines_read tr ++ rest) /\
      exists done pending,
        lines_read tr = done ++ pending /\
        List.map Some (sent tr) =
          List.map (fun line => fromhex (rstrip line)) done /\
        (List.length pending <= 1)%nat
  end.

(** ** Kinds of devices and of events *)

(** A device on which the calls of send.py always return. *)
Definition accepts_all {D : Type}
    (respond : forall T, broadlinkE T -> D -> T * D) : Prop :=
  (forall h d, exists dev, fst (respond _ (hello h) d) = inr dev) /\
  (forall dev d, fst (respond _ (auth dev) d) = inr tt) /\
  (forall dev data d, fst (respond _ (send_data dev data) d) = inr tt).


(** The events capture.py can perform, and those send.py can. *)
Definition capture_event (ev : event) : Prop :=
  match ev with
  | Ehello _ _ | Eauth _ _ | Eenter_learning _ _ | Echeck_data _ _
  | Esleep _ | Eprint _ | Eflush => True
  | Esend_data _ _ _ | Ereadline _ => False
  end.

Definition send_event (ev : event) : Prop :=
  match ev with
  | Ehello _ _ | Eauth _ _ | Esend_data _ _ _ | Eprint _ | Ereadline _ => True
  | Eenter_learning _ _ | Echeck_data _ _ | Esleep _ | Eflush => False
  end.

(** The text [print] writes for a line: the line and a newline. *)
Definition print_line (s : str) : str := s ++ [10].

(** A device that never captures anything: every poll finds the storage
    empty, every other call succeeds. *)
Definition idle_device (T : Type) (e : broadlinkE T) (d : unit) : T * unit :=
  match e in broadlinkE T return T * unit with
  | hello _ => (inr 0, d)
  | auth _ => (inr tt, d)
  | enter_learning _ => (inr tt, d)
  | check_data _ => (inl StorageError, d)
  | send_data _ _ => (inr tt, d)
  end.

(* ===================================================================== *)
(** * Hexadecimal text *)
(* ===================================================================== *)

(** Case analysis on every comparison of code points in the goal. *)
Ltac char_cases :=
  repeat match goal with
         | |- context [if ?b then _ else _] =>
             match b with
             | context [N.leb ?x ?y] =>
                 destruct (N.leb_spec x y); try (exfalso; lia);
                 cbn [andb orb negb]
             end
         end;
  repeat match goal with
         | |- context [N.leb ?a ?b] =>
             destruct (N.leb_spec a b); try (exfalso; lia)
         | |- context [N.eqb ?a ?b] =>
             destruct (N.eqb_spec a b); try (exfalso; lia)
         | |- context [N.ltb ?a ?b] =>
             destruct (N.ltb_spec a b); try (exfalso; lia)
         end;
  cbn [andb orb negb]; try reflexivity; try discriminate; try lia.

(** Induction over a text two characters at a time, as [fromhex] reads it. *)
Lemma str_pair_ind (P : str -> Prop) :
  P [] ->
  (forall c, P [c]) ->
  (forall c d s, P s -> P (d :: s) -> P (c :: d :: s)) ->
  forall s, P s.
Proof.
  intros Hnil Hone Hstep s.
  enough (H : P s /\ forall c, P (c :: s)) by apply H.
  induction s as [|d s [IHs IHc]]; split; auto.
Qed.

Lemma format_02x_byte (x : byte) :
  format_02x (Byte.to_N x) =
  [hex_digit (Byte.to_N x / 16); hex_digit (Byte.to_N x mod 16)].
Proof. destruct x; reflexivity. Qed.

Lemma hex_digit_lower (d : N) : d < 16 -> lower_hex (hex_digit d) = true.
Proof.
  intros H. unfold lower_hex, hex_digit.
  destruct (N.ltb_spec d 10); char_cases.
Qed.

Lemma to_N_bound (x : byte) : Byte.to_N x < 256.
Proof. destruct x; reflexivity. Qed.

Lemma hexdata_cons (x : byte) (data : bytes) :
  hexdata (x :: data) =
  hex_digit (Byte.to_N x / 16) :: hex_digit (Byte.to_N x mod 16)
    :: hexdata data.
Proof.
  unfold hexdata, join. cbn [List.map List.concat].
  rewrite format_02x_byte. reflexivity.
Qed.

Lemma hexdata_app (a b : bytes) : hexdata (a ++ b) = hexdata a ++ hexdata b.
Proof.
  unfold hexdata, join. rewrite List.map_app, List.concat_app. reflexivity.
Qed.

Lemma hexdata_length (data : bytes) :
  List.length (hexdata data) = (2 * List.length data)%nat.
Proof.
  induction data as [|x data IH]; [reflexivity|].
  rewrite hexdata_cons. cbn [List.length]. lia.
Qed.

Lemma hexdata_lower (data : bytes) :
  List.Forall (fun c => lower_hex c = true) (hexdata data).
Proof.
  induction data as [|x data IH]; [constructor|].
  rewrite hexdata_cons.
  pose proof (to_N_bound x) as Hx.
  repeat constructor; auto; apply hex_digit_lower.
  - apply N.Div0.div_lt_upper_bound. lia.
  - apply N.mod_lt. lia.
Qed.

Lemma hexdata_pairs (data : bytes) : matches hex_pairs (hexdata data).
Proof.
  induction data as [|x data IH]; [apply m_star_nil|].
  pose proof (hexdata_lower (x :: data)) as Hl.
  rewrite hexdata_cons in *.
  inversion Hl as [|? ? H1 Hl']; subst. inversion Hl' as [|? ? H2 _]; subst.
  apply (m_star_app _ [_; _]); [|exact IH].
  apply (m_cat _ _ [_] [_]); apply m_class; assumption.
Qed.

Lemma fromhex_byte (x : byte) (rest : str) :
  fromhex (hex_digit (Byte.to_N x / 16) :: hex_digit (Byte.to_N x mod 16)
             :: rest) =
  match fromhex rest with
  | Some bs => Some (x :: bs)
  | None => None
  end.
Proof. destruct x; reflexivity. Qed.

Lemma fromhex_hexdata (data : bytes) : fromhex (hexdata data) = Some data.
Proof.
  induction data as [|x data IH]; [reflexivity|].
  rewrite hexdata_cons, fromhex_byte, IH. reflexivity.
Qed.

(** [rstrip] leaves a text alone that ends in a character that is no
    whitespace. *)
Lemma rstrip_app_newline (s : str) :
  List.Forall (fun c => isspace c = false) s ->
  rstrip (s ++ [10]) = s.
Proof.
  induction 1 as [|c s Hc Hs IH]; [reflexivity|].
  cbn [List.app rstrip]. rewrite IH.
  destruct s; [rewrite Hc|]; reflexivity.
Qed.

Lemma lower_hex_not_space (c : char) : lower_hex c = true -> isspace c = false.
Proof. unfold lower_hex, isspace. intros H. revert H. char_cases. Qed.

(** The two cases of a case folding: the letter range, and the rest. *)
Ltac fold_cases c lo hi :=
  destruct ((lo <=? c) && (c <=? hi)) eqn:Hrange;
  [ apply andb_true_iff in Hrange; destruct Hrange as [Hlo Hhi];
    apply N.leb_le in Hlo; apply N.leb_le in Hhi
  | apply andb_false_iff in Hrange; rewrite !N.leb_gt in Hrange ].

Lemma digit_value_upper c : digit_value (ascii_upper c) = digit_value c.
Proof. unfold ascii_upper. fold_cases c 97 122; unfold digit_value; char_cases. Qed.

Lemma digit_value_lower c : digit_value (ascii_lower c) = digit_value c.
Proof. unfold ascii_lower. fold_cases c 65 90; unfold digit_value; char_cases. Qed.

Lemma ascii_isspace_upper c : ascii_isspace (ascii_upper c) = ascii_isspace c.
Proof. unfold ascii_upper. fold_cases c 97 122; unfold ascii_isspace; char_cases. Qed.

Lemma ascii_isspace_lower c : ascii_isspace (ascii_lower c) = ascii_isspace c.
Proof. unfold ascii_lower. fold_cases c 65 90; unfold ascii_isspace; char_cases. Qed.

(** [fromhex] reads a text through [ascii_isspace] and [digit_value] only. *)
Lemma fromhex_map (f : char -> char) :
  (forall c, ascii_isspace (f c) = ascii_isspace c) ->
  (forall c, digit_value (f c) = digit_value c) ->
  forall s, fromhex (List.map f s) = fromhex s.
Proof.
  intros Hsp Hdv.
  apply str_pair_ind; [ | intros c | intros c d s IHs IHd ].
  - reflexivity.
  - cbn. rewrite Hsp, Hdv. reflexivity.
  - change (List.map f (c :: d :: s)) with (f c :: List.map f (d :: s)).
    cbn [fromhex]. rewrite Hsp, IHd.
    cbn [List.map]. rewrite !Hdv, IHs. reflexivity.
Qed.

(** ** What [fromhex] accepts *)

Lemma digit_value_hex c : (16 <=? digit_value c) = negb (any_hex c).
Proof. unfold digit_value, any_hex, lower_hex. char_cases. Qed.

Lemma any_hex_not_space c : any_hex c = true -> ascii_isspace c = false.
Proof. unfold any_hex, lower_hex, ascii_isspace. intros H. revert H. char_cases. Qed.

(** One step of [fromhex] on a whitespace character, and on a pair. *)
Lemma fromhex_space c s :
  ascii_isspace c = true -> fromhex (c :: s) = fromhex s.
Proof. intros H. cbn [fromhex]. rewrite H. reflexivity. Qed.

Lemma fromhex_pair c d s :
  any_hex c = true -> any_hex d = true ->
  fromhex (c :: d :: s) =
  match fromhex s with
  | Some bs => Some (byte_of_nibbles (digit_value c) (digit_value d) :: bs)
  | None => None
  end.
Proof.
  intros Hc Hd. cbn [fromhex].
  rewrite (any_hex_not_space c Hc), !digit_value_hex, Hc, Hd. reflexivity.
Qed.

Lemma fromhex_bad c s :
  ascii_isspace c = false -> any_hex c = false -> fromhex (c :: s) = None.
Proof.
  intros Hs Hc. cbn [fromhex]. rewrite Hs, digit_value_hex, Hc. reflexivity.
Qed.

Lemma fromhex_bad_second c d s :
  ascii_isspace c = false -> any_hex d = false -> fromhex (c :: d :: s) = None.
Proof.
  intros Hs Hd. cbn [fromhex]. rewrite Hs, !digit_value_hex, Hd.
  destruct (any_hex c); reflexivity.
Qed.

Lemma fromhex_matches s : fromhex s <> None -> matches hex_input s.
Proof.
  revert s.
  apply (str_pair_ind (fun s => fromhex s <> None -> matches hex_input s));
    [ | intros c | intros c d s IHs IHd ].
  - intros _. apply m_star_nil.
  - destruct (ascii_isspace c) eqn:Hs.
    + intros _. apply (m_star_app _ [c] []); [|apply m_star_nil].
      apply m_alt_l, m_class, Hs.
    + cbn [fromhex]. rewrite Hs. destruct (16 <=? digit_value c); congruence.
  - destruct (ascii_isspace c) eqn:Hs.
    + rewrite (fromhex_space _ _ Hs). intros H.
      apply (m_star_app _ [c]); [|apply IHd, H].
      apply m_alt_l, m_class, Hs.
    + destruct (any_hex c) eqn:Hc; [|rewrite (fromhex_bad _ _ Hs Hc); congruence].
      destruct (any_hex d) eqn:Hd;
        [|rewrite (fromhex_bad_second _ _ _ Hs Hd); congruence].
      rewrite (fromhex_pair _ _ _ Hc Hd). intros H.
      apply (m_star_app _ [c; d]).
      * apply m_alt_r, (m_cat _ _ [c] [d]); apply m_class; assumption.
      * apply IHs. destruct (fromhex s); congruence.
Qed.

Lemma matches_fromhex s : matches hex_input s -> fromhex s <> None.
Proof.
  unfold hex_input. intros H.
  remember (Star (Alt (Class ascii_isspace)
                      (Cat (Class any_hex) (Class any_hex)))) as r eqn:Hr.
  induction H as [ | | | | r0 | r0 s1 s2 H1 _ H2 IH ]; try discriminate Hr.
  - cbn. congruence.
  - injection Hr as ->. specialize (IH eq_refl).
    inversion H1 as [ | | ? ? ? Hl | ? ? ? Hr' | | ]; subst.
    + inversion Hl as [ ? c Hc | | | | | ]; subst.
      cbn [List.app]. rewrite (fromhex_space _ _ Hc). exact IH.
    + inversion Hr' as [ | ? ? a b Ha Hb | | | | ]; subst.
      inversion Ha as [ ? c Hc | | | | | ]; subst.
      inversion Hb as [ ? d Hd | | | | | ]; subst.
      cbn [List.app]. rewrite (fromhex_pair _ _ _ Hc Hd).
      destruct (fromhex s2); congruence.
Qed.

(** A character that is neither whitespace nor a digit makes decoding fail. *)
Lemma fromhex_nonhex s c :
  List.In c s -> ascii_isspace c = false -> any_hex c = false ->
  fromhex s = None.
Proof.
  intros Hin Hs Hc. apply Decidable.not_not.
  - destruct (fromhex s); [right|left]; congruence.
  - intros H. apply fromhex_matches in H. revert Hin.
    unfold hex_input in H.
    remember (Star (Alt (Class ascii_isspace)
                        (Cat (Class any_hex) (Class any_hex)))) as r eqn:Hr.
    induction H as [ | | | | r0 | r0 s1 s2 H1 _ H2 IH ]; try discriminate Hr.
    + intros [].
    + injection Hr as ->. specialize (IH eq_refl). intros Hin.
      apply List.in_app_or in Hin. destruct Hin as [Hin|Hin]; [|auto].
      inversion H1 as [ | | ? ? ? Hl | ? ? ? Hr' | | ]; subst.
      * inversion Hl as [ ? c' Hc' | | | | | ]; subst.
        destruct Hin as [->|[]]. congruence.
      * inversion Hr' as [ | ? ? a b Ha Hb | | | | ]; subst.
        inversion Ha as [ ? c' Hc' | | | | | ]; subst.
        inversion Hb as [ ? d' Hd' | | | | | ]; subst.
        destruct Hin as [->|[->|[]]]; congruence.
Qed.

(** On a text of hexadecimal digits only, decoding fails exactly on odd
    length. *)
Lemma fromhex_digits s :
  List.forallb any_hex s = true ->
  (fromhex s = None <-> Nat.odd (List.length s) = true).
Proof.
  revert s.
  apply (str_pair_ind (fun s => List.forallb any_hex s = true ->
           (fromhex s = None <-> Nat.odd (List.length s) = true)));
    [ | intros c | intros c d s IHs _ ].
  - intros _. cbn. split; discriminate.
  - cbn [List.forallb]. rewrite andb_true_r. intros Hc.
    cbn [fromhex]. rewrite (any_hex_not_space _ Hc), digit_value_hex, Hc.
    cbn. tauto.
  - cbn [List.forallb]. intros H.
    apply andb_true_iff in H. destruct H as [Hc H].
    apply andb_true_iff in H. destruct H as [Hd H].
    rewrite (fromhex_pair _ _ _ Hc Hd).
    change (Nat.odd (List.length (c :: d :: s))) with (Nat.odd (List.length s)).
    rewrite <- (IHs H). destruct (fromhex s); split; congruence.
Qed.

Lemma forallb_any_hex_false s :
  List.forallb any_hex s = false -> exists c, List.In c s /\ any_hex c = false.
Proof.
  induction s as [|c s IH]; [discriminate|].
  cbn [List.forallb]. destruct (any_hex c) eqn:Hc.
  - intros H. destruct (IH H) as [c' [Hin Hc']]. exists c'. split; [right|]; auto.
  - intros _. exists c. split; [left|]; auto.
Qed.

(** On a text without ASCII whitespace the condition of the
    specification is exact. *)

Lemma fromhex_odd_or_nonhex s :
  List.existsb ascii_isspace s = false ->
  (fromhex s = None <-> odd_or_nonhex s).
Proof.
  intros Hns. unfold odd_or_nonhex.
  assert (Hsp : forall c, List.In c s -> ascii_isspace c = false).
  { intros c Hin. destruct (ascii_isspace c) eqn:Hc; [|reflexivity].
    assert (List.existsb ascii_isspace s = true)
      by (apply List.existsb_exists; eauto).
    congruence. }
  destruct (List.forallb any_hex s) eqn:Hall.
  - rewrite (fromhex_digits _ Hall). split; [auto|].
    intros [H|[c [Hin Hc]]]; [exact H|].
    rewrite List.forallb_forall in Hall. rewrite (Hall c Hin) in Hc. discriminate.
  - destruct (forallb_any_hex_false _ Hall) as [c [Hin Hc]].
    split; [intros _; right; eauto|].
    intros _. apply (fromhex_nonhex s c Hin (Hsp c Hin) Hc).
Qed.

(** ** Encoding and decoding *)

(** C1: decoding the hexadecimal rendering of a byte sequence gives the
    byte sequence back, also through the newline that [print] adds and
    [rstrip] removes; the rendering is two digits per byte, the high
    nibble first, nothing between them, all digits lowercase; and
    decoding gives the same result whatever the case of the letters of
    its input. *)
Theorem hex_round_trip (B : bytes) :
  fromhex (hexdata B) = Some B /\
  fromhex (rstrip (hexdata B ++ [10])) = Some B /\
  hexdata B =
    List.flat_map
      (fun x => [hex_digit (Byte.to_N x / 16); hex_digit (Byte.to_N x mod 16)])
      B /\
  List.Forall (fun c => lower_hex c = true) (hexdata B) /\
  (forall s : str,
      fromhex (List.map ascii_upper s) = fromhex s /\
      fromhex (List.map ascii_lower s) = fromhex s).
Proof.
  split; [apply fromhex_hexdata|].
  split.
  { rewrite rstrip_app_newline; [apply fromhex_hexdata|].
    eapply List.Forall_impl; [|apply hexdata_lower].
    intros c Hc. apply lower_hex_not_space, Hc. }
  split.
  { induction B as [|x B IH]; [reflexivity|].
    rewrite hexdata_cons. cbn [List.flat_map List.app]. rewrite <- IH.
    reflexivity. }
  split; [apply hexdata_lower|].
  intros s. split; apply fromhex_map.
  - apply ascii_isspace_upper.
  - apply digit_value_upper.
  - apply ascii_isspace_lower.
  - apply digit_value_lower.
Qed.

(** C7: the rendering of a byte sequence matches [^([0-9a-f]{2})*$] and
    is exactly twice as long as the byte sequence. *)
Theorem hexdata_format (B : bytes) :
  matches hex_pairs (hexdata B) /\
  List.length (hexdata B) = (2 * List.length B)%nat.
Proof. split; [apply hexdata_pairs|apply hexdata_length]. Qed.

(** C10: the rendering is a monoid homomorphism from byte sequences to
    texts: it maps concatenation to concatenation and the empty sequence
    to the empty text. *)
Theorem hexdata_homomorphism :
  (forall A B : bytes, hexdata (A ++ B) = hexdata A ++ hexdata B) /\
  hexdata [] = [].
Proof. split; [apply hexdata_app|reflexivity]. Qed.

(* ===================================================================== *)
(** * The runner *)
(* ===================================================================== *)

Section Runner.

Variable D : Type.
Variable respond : forall T, broadlinkE T -> D -> T * D.

(** Rewrite the injection of an event into [E] away. *)
Ltac expose_events :=
  cbv [resum ReSum_id id_ Id_IFun] in *.

(** The runner sees a tree through [observe] only, so a returned value
    can be handed to its continuation before running. *)
Lemma run_subst_ret {R S T} fuel (x : T) (k1 : T -> itree E S)
    (k2 : S -> itree E R) (w : world D) :
  run respond fuel (ITree.subst k2 (ITree.subst k1 (Ret x))) w =
  run respond fuel (ITree.subst k2 (k1 x)) w.
Proof. destruct fuel; reflexivity. Qed.

Lemma run_subst_ret1 {R T} fuel (x : T) (k : T -> itree E R) (w : world D) :
  run respond fuel (ITree.subst k (Ret x)) w = run respond fuel (k x) w.
Proof. destruct fuel; reflexivity. Qed.

(** ** One turn of each loop *)

Lemma run_capture_loop fuel dev d inp :
  run respond fuel (capture_loop dev) (World d inp) =
  let '(r, d1) := respond _ (check_data dev) d in
  emit fuel (Echeck_data dev r) (fun f1 =>
    match r with
    | inl StorageError =>
        emit f1 (Esleep (1 # 2)) (fun f2 =>
        silent f2 (fun f3 =>
        run respond f3 (capture_loop dev) (World d1 inp)))
    | inl err => ([], Raised err)
    | inr data =>
        emit f1 (Eprint (hexdata data)) (fun f2 =>
        emit f2 Eflush (fun f3 =>
        let '(r', d2) := respond _ (enter_learning dev) d1 in
        emit f3 (Eenter_learning dev r') (fun f4 =>
          match r' with
          | inl err => ([], Raised err)
          | inr _ =>
              silent f4 (fun f5 =>
              run respond f5 (capture_loop dev) (World d2 inp))
          end)))
    end).
Proof.
  destruct (respond _ (check_data dev) d) as [r d1] eqn:Hpoll.
  destruct (respond _ (enter_learning dev) d1) as [r' d2] eqn:Harm.
  destruct fuel as [|f1]; cbn; expose_events; rewrite Hpoll; cbn;
    [reflexivity|].
  destruct r as [[| |name]|data]; cbn.
  - destruct f1 as [|[|f3]]; reflexivity.
  - destruct f1; reflexivity.
  - destruct f1; reflexivity.
  - destruct f1 as [|[|[|f4]]]; cbn; expose_events; rewrite ?Harm; cbn;
      try reflexivity.
    destruct r' as [err|[]]; cbn; destruct f4; reflexivity.
Qed.

Lemma run_send_loop fuel dev d inp :
  run respond fuel (send_loop dev) (World d inp) =
  match inp with
  | [] => emit fuel (Ereadline None) (fun _ => ([], Returned tt))
  | line :: rest =>
      emit fuel (Ereadline (Some line)) (fun f1 =>
        match fromhex (rstrip line) with
        | None => ([], Raised ValueError)
        | Some data =>
            let '(r, d1) := respond _ (send_data dev data) d in
            emit f1 (Esend_data dev data r) (fun f2 =>
              match r with
              | inl err => ([], Raised err)
              | inr _ =>
                  emit f2 (Eprint (lit "Sent")) (fun f3 =>
                  silent f3 (fun f4 =>
                  run respond f4 (send_loop dev) (World d1 rest)))
              end)
        end)
  end.
Proof.
  destruct inp as [|line rest].
  - destruct fuel as [|[|f]]; reflexivity.
  - destruct fuel as [|f1]; [reflexivity|]. cbn.
    rewrite run_subst_ret.
    destruct (fromhex (rstrip line)) as [data|] eqn:Hdec.
    + destruct (respond _ (send_data dev data) d) as [r d1] eqn:Hsend.
      destruct f1 as [|f2]; cbn; expose_events; rewrite Hsend; cbn;
        [reflexivity|].
      destruct r as [err|[]]; cbn.
      * destruct f2; reflexivity.
      * destruct f2 as [|[|f4]]; reflexivity.
    + destruct f1; reflexivity.
Qed.

(** ** The handshake before each loop *)

Lemma run_capture fuel d inp :
  run respond fuel capture (World d inp) =
  let '(r0, d0) := respond _ (hello host) d in
  emit fuel (Ehello host r0) (fun f1 =>
    match r0 with
    | inl err => ([], Raised err)
    | inr dev =>
        let '(r1, d1) := respond _ (auth dev) d0 in
        emit f1 (Eauth dev r1) (fun f2 =>
          match r1 with
          | inl err => ([], Raised err)
          | inr _ =>
              let '(r2, d2) := respond _ (enter_learning dev) d1 in
              emit f2 (Eenter_learning dev r2) (fun f3 =>
                match r2 with
                | inl err => ([], Raised err)
                | inr _ => run respond f3 (capture_loop dev) (World d2 inp)
                end)
          end)
    end).
Proof.
  destruct (respond _ (hello host) d) as [r0 d0] eqn:H0.
  destruct fuel as [|f1]; cbn -[host]; expose_events; rewrite H0; cbn -[host];
    [reflexivity|].
  destruct r0 as [err|dev]; cbn -[host]; [destruct f1; reflexivity|].
  destruct (respond _ (auth dev) d0) as [r1 d1] eqn:H1.
  destruct f1 as [|f2]; cbn -[host]; expose_events; rewrite H1; cbn -[host];
    [reflexivity|].
  destruct r1 as [err|[]]; cbn -[host]; [destruct f2; reflexivity|].
  destruct (respond _ (enter_learning dev) d1) as [r2 d2] eqn:H2.
  destruct f2 as [|f3]; cbn -[host]; expose_events; rewrite H2; cbn -[host];
    [reflexivity|].
  destruct r2 as [err|[]]; cbn -[host]; [destruct f3; reflexivity|].
  rewrite run_subst_ret, run_subst_ret1.
  destruct (run respond f3 _ _); reflexivity.
Qed.

Lemma run_send fuel d inp :
  run respond fuel send (World d inp) =
  let '(r0, d0) := respond _ (hello host) d in
  emit fuel (Ehello host r0) (fun f1 =>
    match r0 with
    | inl err => ([], Raised err)
    | inr dev =>
        let '(r1, d1) := respond _ (auth dev) d0 in
        emit f1 (Eauth dev r1) (fun f2 =>
          match r1 with
          | inl err => ([], Raised err)
          | inr _ => run respond f2 (send_loop dev) (World d1 inp)
          end)
    end).
Proof.
  destruct (respond _ (hello host) d) as [r0 d0] eqn:H0.
  destruct fuel as [|f1]; cbn -[host]; expose_events; rewrite H0; cbn -[host];
    [reflexivity|].
  destruct r0 as [err|dev]; cbn -[host]; [destruct f1; reflexivity|].
  destruct (respond _ (auth dev) d0) as [r1 d1] eqn:H1.
  destruct f1 as [|f2]; cbn -[host]; expose_events; rewrite H1; cbn -[host];
    [reflexivity|].
  destruct r1 as [err|[]]; cbn -[host]; [destruct f2; reflexivity|].
  rewrite run_subst_ret, run_subst_ret1.
  destruct (run respond f2 _ _); reflexivity.
Qed.


(* ===================================================================== *)
(** * Every run follows its protocol *)
(* ===================================================================== *)

Section Protocol.

Context {state R : Type}.
Variable step : state -> event -> state -> Prop.
Variable standing : state -> outcome R -> Prop.

Lemma steps_app s tr1 s1 tr2 s2 :
  steps step s tr1 s1 -> steps step s1 tr2 s2 -> steps step s (tr1 ++ tr2) s2.
Proof.
  induction 1 as [|s ev sm tr1 s1 Hstep _ IH]; intros H2; [exact H2|].
  cbn [List.app]. apply (steps_cons s ev sm); auto.
Qed.

Lemma steps_app_inv s tr1 tr2 s2 :
  steps step s (tr1 ++ tr2) s2 ->
  exists s1, steps step s tr1 s1 /\ steps step s1 tr2 s2.
Proof.
  revert s. induction tr1 as [|ev tr1 IH]; intros s H.
  - exists s. split; [apply steps_nil|exact H].
  - cbn [List.app] in H. inversion H as [|? ? sm ? ? Hstep Hrest]; subst.
    destruct (IH _ Hrest) as [s1 [H1 H2]].
    exists s1. split; [apply (steps_cons s ev sm)|]; assumption.
Qed.

Lemma steps_one_inv s ev s' :
  steps step s [ev] s' -> step s ev s'.
Proof.
  intros H. inversion H as [|? ? sm ? ? Hstep Hrest]; subst.
  inversion Hrest; subst. exact Hstep.
Qed.

(** The state before and after any one event of an allowed trace. *)
Lemma steps_split s pre ev post s' :
  steps step s (pre ++ ev :: post) s' ->
  exists s1 s2,
    steps step s pre s1 /\ step s1 ev s2 /\ steps step s2 post s'.
Proof.
  intros H. apply steps_app_inv in H. destruct H as [s1 [Hpre H]].
  inversion H as [|? ? s2 ? ? Hstep Hpost]; subst.
  exists s1, s2. auto.
Qed.

(** The last event of an allowed trace and the state before it. *)
Lemma steps_last_inv s tr s' :
  steps step s tr s' ->
  (tr = [] /\ s' = s) \/
  exists pre sm ev, tr = pre ++ [ev] /\ steps step s pre sm /\ step sm ev s'.
Proof.
  induction 1 as [s|s ev s1 tr s' Hstep Hrest IH]; [left; auto|right].
  destruct IH as [[-> ->]|(pre & sm & ev' & -> & Hpre & Hlast)].
  - exists [], s, ev. repeat split; [apply steps_nil|exact Hstep].
  - exists (ev :: pre), sm, ev'. repeat split; [|exact Hlast].
    apply (steps_cons s ev s1); assumption.
Qed.

Lemma conforms_emit fuel ev k s s1 :
  standing s Running ->
  step s ev s1 ->
  (forall f, (f < fuel)%nat -> conforms step standing s1 (k f)) ->
  conforms step standing s (emit fuel ev k).
Proof.
  intros Hrun Hstep Hk. destruct fuel as [|f]; cbn [emit].
  - exists s. split; [apply steps_nil|exact Hrun].
  - destruct (Hk f (Nat.lt_succ_diag_r f)) as [s' [Htr Ho]].
    destruct (k f) as [tr o]. exists s'. split; [|exact Ho].
    apply (steps_cons s ev s1); assumption.
Qed.

Lemma conforms_silent fuel k s :
  standing s Running ->
  (forall f, (f < fuel)%nat -> conforms step standing s (k f)) ->
  conforms step standing s (silent fuel k).
Proof.
  intros Hrun Hk. destruct fuel as [|f]; cbn [silent].
  - exists s. split; [apply steps_nil|exact Hrun].
  - apply Hk, Nat.lt_succ_diag_r.
Qed.

Lemma conforms_stop s o :
  standing s o -> conforms step standing s ([], o).
Proof. intros H. exists s. split; [apply steps_nil|exact H]. Qed.

End Protocol.

Lemma capture_loop_conforms fuel dev d inp :
  conforms cstep cstanding (CArmed dev)
    (run respond fuel (capture_loop dev) (World d inp)).
Proof.
  revert d. induction fuel as [fuel IH] using lt_wf_ind. intros d.
  rewrite run_capture_loop.
  destruct (respond _ (check_data dev) d) as [r d1].
  destruct r as [err|data].
  - destruct err as [| |name].
    + apply (conforms_emit _ _ _ _ _ _ (CWaiting dev));
        [reflexivity|constructor|intros f1 H1].
      apply (conforms_emit _ _ _ _ _ _ (CArmed dev));
        [reflexivity|constructor|intros f2 H2].
      apply conforms_silent; [reflexivity|intros f3 H3].
      apply IH. lia.
    + apply (conforms_emit _ _ _ _ _ _ (CFailed ValueError));
        [reflexivity|constructor; discriminate|intros f1 H1].
      apply conforms_stop. reflexivity.
    + apply (conforms_emit _ _ _ _ _ _ (CFailed (Exception name)));
        [reflexivity|constructor; discriminate|intros f1 H1].
      apply conforms_stop. reflexivity.
  - apply (conforms_emit _ _ _ _ _ _ (CCaptured dev data));
      [reflexivity|constructor|intros f1 H1].
    apply (conforms_emit _ _ _ _ _ _ (CPrinted dev));
      [reflexivity|constructor|intros f2 H2].
    apply (conforms_emit _ _ _ _ _ _ (CFlushed dev));
      [reflexivity|constructor|intros f3 H3].
    destruct (respond _ (enter_learning dev) d1) as [r' d2].
    destruct r' as [err|[]].
    + apply (conforms_emit _ _ _ _ _ _ (CFailed err));
        [reflexivity|constructor|intros f4 H4].
      apply conforms_stop. reflexivity.
    + apply (conforms_emit _ _ _ _ _ _ (CArmed dev));
        [reflexivity|constructor|intros f4 H4].
      apply conforms_silent; [reflexivity|intros f5 H5].
      apply IH. lia.
Qed.

Lemma capture_conforms fuel d inp :
  conforms cstep cstanding CStart (run respond fuel capture (World d inp)).
Proof.
  rewrite run_capture.
  destruct (respond _ (hello host) d) as [r0 d0].
  destruct r0 as [err|dev].
  { apply (conforms_emit _ _ _ _ _ _ (CFailed err));
      [reflexivity|constructor|intros f1 H1].
    apply conforms_stop. reflexivity. }
  apply (conforms_emit _ _ _ _ _ _ (CConnected dev));
    [reflexivity|constructor|intros f1 H1].
  destruct (respond _ (auth dev) d0) as [r1 d1].
  destruct r1 as [err|[]].
  { apply (conforms_emit _ _ _ _ _ _ (CFailed err));
      [reflexivity|constructor|intros f2 H2].
    apply conforms_stop. reflexivity. }
  apply (conforms_emit _ _ _ _ _ _ (CAuthed dev));
    [reflexivity|constructor|intros f2 H2].
  destruct (respond _ (enter_learning dev) d1) as [r2 d2].
  destruct r2 as [err|[]].
  { apply (conforms_emit _ _ _ _ _ _ (CFailed err));
      [reflexivity|constructor|intros f3 H3].
    apply conforms_stop. reflexivity. }
  apply (conforms_emit _ _ _ _ _ _ (CArmed dev));
    [reflexivity|constructor|intros f3 H3].
  apply capture_loop_conforms.
Qed.

Lemma send_loop_conforms fuel dev d inp :
  conforms sstep sstanding (SIdle dev inp)
    (run respond fuel (send_loop dev) (World d inp)).
Proof.
  revert d inp. induction fuel as [fuel IH] using lt_wf_ind. intros d inp.
  rewrite run_send_loop.
  destruct inp as [|line rest].
  { apply (conforms_emit _ _ _ _ _ _ SFinished);
      [reflexivity|constructor|intros f1 H1].
    apply conforms_stop. reflexivity. }
  destruct (fromhex (rstrip line)) as [data|] eqn:Hdec.
  - apply (conforms_emit _ _ _ _ _ _ (SDecoded dev data rest));
      [reflexivity|constructor; exact Hdec|intros f1 H1].
    destruct (respond _ (send_data dev data) d) as [r d1].
    destruct r as [err|[]].
    + apply (conforms_emit _ _ _ _ _ _ (SFailed err));
        [reflexivity|constructor|intros f2 H2].
      apply conforms_stop. reflexivity.
    + apply (conforms_emit _ _ _ _ _ _ (SSent dev rest));
        [reflexivity|constructor|intros f2 H2].
      apply (conforms_emit _ _ _ _ _ _ (SIdle dev rest));
        [reflexivity|constructor|intros f3 H3].
      apply conforms_silent; [reflexivity|intros f4 H4].
      apply IH. lia.
  - apply (conforms_emit _ _ _ _ _ _ (SFailed ValueError));
      [reflexivity|constructor; exact Hdec|intros f1 H1].
    apply conforms_stop. reflexivity.
Qed.

Lemma send_conforms fuel d inp :
  conforms sstep sstanding (SStart inp) (run respond fuel send (World d inp)).
Proof.
  rewrite run_send.
  destruct (respond _ (hello host) d) as [r0 d0].
  destruct r0 as [err|dev].
  { apply (conforms_emit _ _ _ _ _ _ (SFailed err));
      [reflexivity|constructor|intros f1 H1].
    apply conforms_stop. reflexivity. }
  apply (conforms_emit _ _ _ _ _ _ (SConnected dev inp));
    [reflexivity|constructor|intros f1 H1].
  destruct (respond _ (auth dev) d0) as [r1 d1].
  destruct r1 as [err|[]].
  { apply (conforms_emit _ _ _ _ _ _ (SFailed err));
      [reflexivity|constructor|intros f2 H2].
    apply conforms_stop. reflexivity. }
  apply (conforms_emit _ _ _ _ _ _ (SIdle dev inp));
    [reflexivity|constructor|intros f2 H2].
  apply send_loop_conforms.
Qed.

(* ===================================================================== *)
(** * What the protocols imply *)
(* ===================================================================== *)

(** The runner's result does not change once the process has stopped. *)
Lemma run_stable {R} fuel more (t : itree E R) (w : world D) tr o :
  run respond fuel t w = (tr, o) -> o <> Running ->
  run respond (fuel + more) t w = (tr, o).
Proof.
  revert t w tr o. induction fuel as [|fuel IH]; intros t w tr o H Ho.
  - cbn [Nat.add]. destruct more as [|more]; [exact H|].
    cbn [run] in *. destruct (observe t) as [r|t'|X e k].
    + exact H.
    + injection H as <- <-. congruence.
    + destruct (answer respond e w) as [[[ev x] w']|err]; [|exact H].
      injection H as <- <-. congruence.
  - cbn [Nat.add run] in *. destruct (observe t) as [r|t'|X e k].
    + exact H.
    + apply IH; assumption.
    + destruct (answer respond e w) as [[[ev x] w']|err]; [|exact H].
      destruct (run respond fuel (k x) w') as [tr' o'] eqn:Hrun.
      injection H as <- <-.
      rewrite (IH _ _ _ _ Hrun Ho). reflexivity.
Qed.

(** ** Projections of a trace put together *)

Lemma printed_app a b : printed (a ++ b) = printed a ++ printed b.
Proof.
  induction a as [|[] a IH]; cbn [List.app printed]; rewrite ?IH; reflexivity.
Qed.

Lemma sent_app a b : sent (a ++ b) = sent a ++ sent b.
Proof.
  induction a as [|[] a IH]; cbn [List.app sent]; rewrite ?IH; reflexivity.
Qed.

Lemma captured_app a b : captured (a ++ b) = captured a ++ captured b.
Proof.
  induction a as [|[? ?|? ?|? ?|? [?|?]|? ? ?|?|?| |?] a IH];
    cbn [List.app captured]; rewrite ?IH; reflexivity.
Qed.

Lemma arms_app a b : arms (a ++ b) = (arms a + arms b)%nat.
Proof.
  induction a as [|[] a IH]; cbn [List.app arms]; rewrite ?IH; reflexivity.
Qed.

Lemma lines_read_app a b : lines_read (a ++ b) = lines_read a ++ lines_read b.
Proof.
  induction a as [|[? ?|? ?|? ?|? ?|? ? ?|?|?| |[?|]] a IH];
    cbn [List.app lines_read]; rewrite ?IH; reflexivity.
Qed.

Lemma quiet_app a b : quiet a -> quiet b -> quiet (a ++ b).
Proof. intros Ha Hb. apply List.Forall_app. split; assumption. Qed.

(** ** Invariants of a protocol, by the events so far *)

Section History.

Context {state : Type}.
Variable step : state -> event -> state -> Prop.
Variable inv : list event -> state -> Prop.

Hypothesis inv_step :
  forall pre s ev s', inv pre s -> step s ev s' -> inv (pre ++ [ev]) s'.

Lemma steps_history pre s tr s' :
  inv pre s -> steps step s tr s' -> inv (pre ++ tr) s'.
Proof.
  intros Hinv Hsteps. revert pre Hinv.
  induction Hsteps as [s|s ev s1 tr s' Hstep _ IH]; intros pre Hinv.
  - rewrite List.app_nil_r. exact Hinv.
  - replace (pre ++ ev :: tr) with ((pre ++ [ev]) ++ tr)
      by (rewrite <- List.app_assoc; reflexivity).
    apply IH, (inv_step _ _ _ _ Hinv Hstep).
Qed.

End History.

Lemma capture_history_step pre s ev s' :
  capture_history pre s -> cstep s ev s' -> capture_history (pre ++ [ev]) s'.
Proof.
  intros Hinv Hstep. destruct Hstep; cbn [capture_history] in *;
    rewrite ?arms_app, ?printed_app, ?captured_app;
    cbn [arms printed captured];
    rewrite ?List.app_nil_r, ?Nat.add_0_r, ?Nat.add_1_r.
  all: try (destruct Hinv as [Ha [Hp Hc]]; rewrite ?Ha, ?Hp, ?Hc;
            cbn; repeat split; (reflexivity || lia)).
  all: try (destruct Hinv as [Ha Hp]; rewrite ?Ha; repeat split;
            (assumption || lia)).
  - (* a code is returned *)
    destruct Hinv as [Ha Hp]. split; [exact Ha|].
    exists (captured pre). split; [reflexivity|exact Hp].
  - (* the code is printed *)
    destruct Hinv as [Ha [codes [Hc Hp]]].
    rewrite Ha, Hc, Hp, List.map_app, List.length_app. cbn.
    split; [lia|reflexivity].
Qed.

Lemma send_history_step inp pre s ev s' :
  send_history inp pre s -> sstep s ev s' -> send_history inp (pre ++ [ev]) s'.
Proof.
  intros Hinv Hstep.
  assert (Hq : forall ev0, raised ev0 = None -> quiet pre ->
                           quiet (pre ++ [ev0])).
  { intros ev0 H0 Hq. apply quiet_app; [exact Hq|]. repeat constructor.
    exact H0. }
  destruct Hstep; cbn [send_history] in *;
    rewrite ?lines_read_app, ?sent_app, ?printed_app;
    cbn [lines_read sent printed]; rewrite ?List.app_nil_r.
  - destruct Hinv as (Hl & Hquiet & Hr & Hs & Hp). auto 10.
  - destruct Hinv as (Hl & Hquiet & Hr & Hs & Hp). rewrite Hr, Hs.
    split; [exists inp; reflexivity|]. exists [], []. cbn. auto.
  - destruct Hinv as (Hl & Hquiet & Hr & Hs & Hp).
    rewrite Hr, Hs, Hp. cbn. auto 10.
  - destruct Hinv as (Hl & Hquiet & Hr & Hs & Hp). rewrite Hr, Hs.
    split; [exists inp; reflexivity|]. exists [], []. cbn. auto.
  - destruct Hinv as (Hl & Hquiet & Hs & Hp).
    split; [auto|]. exists (lines_read pre), line. auto 10.
  - destruct Hinv as (Hl & Hquiet & Hs & Hp). split.
    + exists lines. rewrite <- List.app_assoc. exact Hl.
    + exists (lines_read pre), [line]. cbn. auto.
  - destruct Hinv as (Hl & Hquiet & Hs & Hp).
    rewrite List.app_nil_r in Hl. auto 10.
  - destruct Hinv as (Hquiet & done & line & Hr & Hl & Hdec & Hs & Hp).
    rewrite Hr, !List.map_app, Hs, Hp, List.length_app, <- List.app_assoc.
    cbn [List.map List.app List.length]. rewrite Hdec.
    rewrite List.repeat_app. cbn [List.repeat]. auto 10.
  - destruct Hinv as (Hquiet & done & line & Hr & Hl & Hdec & Hs & Hp).
    split.
    + exists lines. rewrite Hr, <- List.app_assoc. exact Hl.
    + exists (lines_read pre), []. rewrite List.app_nil_r, Hr, !List.map_app, Hs.
      cbn [List.map]. rewrite Hdec. cbn. auto.
  - destruct Hinv as (Hl & Hquiet & Hs & Hp). auto 10.
Qed.

End Runner.

(* ===================================================================== *)
(** * Properties of the two loops *)
(* ===================================================================== *)

Lemma cfailed_final err tr s :
  steps cstep (CFailed err) tr s -> tr = [] /\ s = CFailed err.
Proof.
  intros H. inversion H as [|? ? ? ? ? Hstep]; subst; [auto|inversion Hstep].
Qed.

Lemma sfailed_final err tr s :
  steps sstep (SFailed err) tr s -> tr = [] /\ s = SFailed err.
Proof.
  intros H. inversion H as [|? ? ? ? ? Hstep]; subst; [auto|inversion Hstep].
Qed.

Lemma sfinished_final tr s :
  steps sstep SFinished tr s -> tr = [] /\ s = SFinished.
Proof.
  intros H. inversion H as [|? ? ? ? ? Hstep]; subst; [auto|inversion Hstep].
Qed.

Lemma star_class p s :
  List.Forall (fun c => p c = true) s -> matches (Star (Class p)) s.
Proof.
  induction 1 as [|c s Hc _ IH]; [apply m_star_nil|].
  apply (m_star_app _ [c]); [apply m_class, Hc|exact IH].
Qed.

Lemma hexdata_line (data : bytes) :
  data <> [] -> matches hex_line (hexdata data).
Proof.
  destruct data as [|x data]; [congruence|intros _].
  pose proof (hexdata_lower (x :: data)) as Hl.
  rewrite hexdata_cons in *. inversion Hl as [|? ? H1 Hl']; subst.
  apply (m_cat _ _ [_]); [apply m_class, H1|apply star_class, Hl'].
Qed.

Lemma empty_not_line : ~ matches hex_line [].
Proof.
  unfold hex_line. intros H.
  inversion H as [ | ? ? s1 s2 H1 H2 Heq | | | | ]; subst.
  inversion H1; subst. discriminate.
Qed.

(** Once the script of the simulated device is used up, the capture loop
    polls and sleeps for ever: it prints nothing and never arms again. *)
Lemma simulated_idle fuel dev inp :
  printed (fst (run simulated fuel (capture_loop dev) (World [] inp))) = [] /\
  arms (fst (run simulated fuel (capture_loop dev) (World [] inp))) = O /\
  snd (run simulated fuel (capture_loop dev) (World [] inp)) = Running.
Proof.
  induction fuel as [fuel IH] using lt_wf_ind.
  rewrite run_capture_loop. cbn [simulated].
  destruct fuel as [|[|[|f]]]; cbn [emit silent]; try (cbn; auto; fail).
  specialize (IH f ltac:(lia)).
  destruct (run simulated f (capture_loop dev) (World [] inp)) as [tr o].
  exact IH.
Qed.

Section Loops.

Variable D : Type.
Variable respond : forall T, broadlinkE T -> D -> T * D.

(** A longer observation shows the events of a shorter one, and then
    maybe more. *)
Lemma run_prefix {R} fuel more (t : itree E R) (w : world D) :
  exists ext,
    fst (run respond (fuel + more) t w) = fst (run respond fuel t w) ++ ext.
Proof.
  revert t w. induction fuel as [|fuel IH]; intros t w.
  - exists (fst (run respond (0 + more) t w)).
    cbn [run]. destruct (observe t) as [r|t'|X e k]; try reflexivity.
    destruct (answer respond e w) as [[[ev x] w']|err]; reflexivity.
  - cbn [Nat.add run]. destruct (observe t) as [r|t'|X e k].
    + exists []. reflexivity.
    + apply IH.
    + destruct (answer respond e w) as [[[ev x] w']|err];
        [|exists []; reflexivity].
      destruct (IH (k x) w') as [ext Hext].
      destruct (run respond (fuel + more) (k x) w') as [tr1 o1].
      destruct (run respond fuel (k x) w') as [tr0 o0].
      cbn [fst] in *. exists ext. rewrite Hext. reflexivity.
Qed.

(** The capture loop starts with a poll. *)
Lemma capture_loop_polls_first fuel dev d inp :
  (1 <=
   List.length (fst (run respond (S fuel) (capture_loop dev) (World d inp))))%nat.
Proof.
  rewrite run_capture_loop.
  destruct (respond _ (check_data dev) d) as [r d1]. cbn [emit].
  destruct (match r with inl _ => _ | inr _ => _ end) as [tr o].
  cbn. lia.
Qed.

(** Three steps after an empty poll the loop has slept and polled again:
    the trace is at least two events longer. *)
Lemma capture_loop_retries :
  forall fuel dev d inp i dev0,
    List.nth_error (fst (run respond fuel (capture_loop dev) (World d inp))) i
    = Some (Echeck_data dev0 (inl StorageError)) ->
    (i + 3 <=
     List.length
       (fst (run respond (fuel + 3) (capture_loop dev) (World d inp))))%nat.
Proof.
  induction fuel as [fuel IH] using lt_wf_ind. intros dev d inp i dev0.
  rewrite !run_capture_loop.
  destruct (respond _ (check_data dev) d) as [r d1].
  destruct r as [[| |name]|data].
  - (* the storage is empty *)
    destruct fuel as [|[|[|f]]]; cbn [Nat.add emit silent fst].
    + destruct i; discriminate.
    + pose proof (capture_loop_polls_first 0 dev d1 inp) as Hnext.
      destruct (run respond 1 (capture_loop dev) (World d1 inp)) as [tr' o'].
      destruct i as [|[|i]]; cbn; intros H; try discriminate H;
        cbn [fst] in Hnext; lia.
    + pose proof (capture_loop_polls_first 1 dev d1 inp) as Hnext.
      destruct (run respond 2 (capture_loop dev) (World d1 inp)) as [tr' o'].
      destruct i as [|[|[|i]]]; cbn; intros H; try discriminate H;
        cbn [fst] in Hnext; lia.
    + pose proof (capture_loop_polls_first (f + 2) dev d1 inp) as Hnext.
      replace (S (f + 2)) with (f + 3)%nat in Hnext by lia.
      pose proof (IH f ltac:(lia) dev d1 inp) as IHf.
      destruct (run respond (f + 3) (capture_loop dev) (World d1 inp))
        as [tr' o'].
      destruct (run respond f (capture_loop dev) (World d1 inp)) as [tr o].
      cbn [fst] in *.
      destruct i as [|[|i]]; cbn; intros H; try discriminate H.
      * lia.
      * specialize (IHf i dev0 H). lia.
  - (* another exception *)
    destruct fuel as [|f]; cbn [Nat.add emit fst];
      destruct i as [|[|i]]; cbn; intros H; discriminate H.
  - destruct fuel as [|f]; cbn [Nat.add emit fst];
      destruct i as [|[|i]]; cbn; intros H; discriminate H.
  - (* a code *)
    destruct (respond _ (enter_learning dev) d1) as [r' d2].
    destruct fuel as [|[|[|[|[|f]]]]]; cbn [Nat.add emit silent fst].
    1-5: destruct r' as [err|[]];
      destruct i as [|[|[|[|[|i]]]]]; cbn; intros H; discriminate H.
    destruct r' as [err|[]].
    + destruct i as [|[|[|[|[|i]]]]]; cbn; intros H; discriminate H.
    + pose proof (IH f ltac:(lia) dev d2 inp) as IHf.
      destruct (run respond (f + 3) (capture_loop dev) (World d2 inp))
        as [tr' o'].
      destruct (run respond f (capture_loop dev) (World d2 inp)) as [tr o].
      cbn [fst] in *.
      destruct i as [|[|[|[|i]]]]; cbn; intros H; try discriminate H.
      specialize (IHf i dev0 H). lia.
Qed.

Lemma capture_retries fuel d inp i dev0 :
  List.nth_error (fst (run respond fuel capture (World d inp))) i
  = Some (Echeck_data dev0 (inl StorageError)) ->
  (i + 3 <=
   List.length (fst (run respond (fuel + 3) capture (World d inp))))%nat.
Proof.
  rewrite !run_capture.
  destruct (respond _ (hello host) d) as [r0 d0].
  destruct fuel as [|f1]; cbn [Nat.add emit fst];
    [destruct i; discriminate|].
  destruct r0 as [err|dev];
    [destruct i as [|[|i]]; cbn; intros H; discriminate H|].
  destruct (respond _ (auth dev) d0) as [r1 d1].
  destruct f1 as [|f2]; cbn [Nat.add emit fst];
    [destruct i as [|[|i]]; cbn; intros H; discriminate H|].
  destruct r1 as [err|[]];
    [destruct i as [|[|[|i]]]; cbn; intros H; discriminate H|].
  destruct (respond _ (enter_learning dev) d1) as [r2 d2].
  destruct f2 as [|f3]; cbn [Nat.add emit fst];
    [destruct i as [|[|[|i]]]; cbn; intros H; discriminate H|].
  destruct r2 as [err|[]];
    [destruct i as [|[|[|[|i]]]]; cbn; intros H; discriminate H|].
  pose proof (capture_loop_retries f3 dev d2 inp) as Hloop.
  destruct (run respond (f3 + 3) (capture_loop dev) (World d2 inp))
    as [tr' o'].
  destruct (run respond f3 (capture_loop dev) (World d2 inp)) as [tr o].
  cbn [fst] in *.
  destruct i as [|[|[|i]]]; cbn; intros H; try discriminate H.
  specialize (Hloop i dev0 H). lia.
Qed.

Lemma nth_error_middle (pre : list event) ev post :
  List.nth_error (pre ++ ev :: post) (List.length pre) = Some ev.
Proof. induction pre as [|e pre IH]; [reflexivity|exact IH]. Qed.

(** C6: in a run of capture.py, a library call that raises anything but
    the empty poll is the last event: the exception reaches the top level,
    the exit status is 1, and no later observation shows another event.
    Only [StorageError] from [check_data] is recovered: the process goes
    on running, what follows is the half-second sleep and then the next
    poll, with no call of [enter_learning] between, and three steps later
    both have happened. *)
Theorem capture_fail_fast fuel d inp tr o :
  run respond fuel capture (World d inp) = (tr, o) ->
  forall pre ev post err,
    tr = pre ++ ev :: post -> raised ev = Some err ->
    ((exists dev, ev = Echeck_data dev (inl StorageError)) /\
     ((post = [] /\ o = Running) \/
      (post = [Esleep (1 # 2)] /\ o = Running) \/
      exists dev r post',
        post = Esleep (1 # 2) :: Echeck_data dev r :: post') /\
     (exists dev r rest,
        fst (run respond (fuel + 3) capture (World d inp)) =
        pre ++ ev :: Esleep (1 # 2) :: Echeck_data dev r :: rest))
    \/
    ((forall dev, ev <> Echeck_data dev (inl StorageError)) /\
     post = [] /\ o = Raised err /\ exit_code o = Some 1 /\
     forall more,
       run respond (fuel + more) capture (World d inp) = (tr, o)).
Proof.
  intros Hrun pre ev post err -> Hraised.
  destruct (capture_conforms D respond fuel d inp) as [s' [Hsteps Hstand]].
  rewrite Hrun in Hsteps, Hstand. cbn [fst snd] in Hsteps, Hstand.
  apply steps_split in Hsteps.
  destruct Hsteps as (s1 & s2 & _ & Hstep & Hpost).
  assert (Hfatal : forall e, s2 = CFailed e -> raised ev = Some e ->
            post = [] /\ o = Raised err /\ exit_code o = Some 1 /\
            forall more,
              run respond (fuel + more) capture (World d inp)
              = (pre ++ ev :: post, o)).
  { intros e -> He. rewrite Hraised in He. injection He as <-.
    apply cfailed_final in Hpost. destruct Hpost as [-> ->].
    cbn in Hstand. subst o. repeat split.
    intros more. apply run_stable; [exact Hrun|discriminate]. }
  inversion Hstep; subst; cbn in Hraised; try discriminate.
  all: try (right; split;
            [intros ? ?; try discriminate
            |apply (Hfatal _ eq_refl); reflexivity]).
  - (* the empty poll *)
    left. split; [eauto|]. split.
    + inversion Hpost as [|? ? ? ? ? Hs1 Hp1]; subst; [auto|].
      inversion Hs1; subst. right.
      inversion Hp1 as [|? ? ? ? ? Hs2 Hp2]; subst; [auto|].
      inversion Hs2; subst; eauto.
    + pose proof (capture_retries fuel d inp (List.length pre) dev) as Hlen.
      rewrite Hrun in Hlen. cbn [fst] in Hlen.
      specialize (Hlen (nth_error_middle _ _ _)).
      destruct (run_prefix fuel 3 capture (World d inp)) as [ext Hext].
      rewrite Hrun in Hext. cbn [fst] in Hext.
      destruct (capture_conforms D respond (fuel + 3) d inp)
        as [s3 [Hsteps3 _]].
      rewrite Hext in Hsteps3, Hlen |- *.
      rewrite <- List.app_assoc in Hsteps3, Hlen |- *.
      cbn [List.app] in Hsteps3, Hlen |- *.
      rewrite List.length_app in Hlen. cbn [List.length] in Hlen.
      apply steps_split in Hsteps3.
      destruct Hsteps3 as (t1 & t2 & _ & Hstep3 & Hpost3).
      inversion Hstep3; subst; [|congruence].
      destruct (post ++ ext) as [|a [|b rest]];
        [cbn in Hlen; lia|cbn in Hlen; lia|].
      inversion Hpost3 as [|? ? ? ? ? Hs1 Hp1]; subst.
      inversion Hs1; subst.
      inversion Hp1 as [|? ? ? ? ? Hs2 Hp2]; subst.
      inversion Hs2; subst; do 3 eexists; reflexivity.
  - (* any other exception of a poll *)
    match goal with H : Echeck_data _ _ = Echeck_data _ _ |- _ =>
      injection H as _ ->
    end. congruence.
Qed.

(** C8, as the code has it: every line capture.py prints is the rendering
    of the code that the poll just before it returned; it matches
    [^([0-9a-f]{2})*$], and [^[0-9a-f]+$] whenever the code is not empty;
    the event after a [print], if there is one, is the flush, and a poll
    that returns a code is followed by the print and the flush at once;
    the lines printed are the renderings of the codes captured, in order,
    with at most the last code not printed yet. *)
Theorem capture_output_lines fuel d inp tr o :
  run respond fuel capture (World d inp) = (tr, o) ->
  (forall pre s post,
      tr = pre ++ Eprint s :: post ->
      exists dev data pre',
        pre = pre' ++ [Echeck_data dev (inr data)] /\
        s = hexdata data /\
        matches hex_pairs s /\
        (data <> [] -> matches hex_line s) /\
        (post = [] \/ exists post', post = Eflush :: post')) /\
  (exists codes pending,
      captured tr = codes ++ pending /\
      printed tr = List.map hexdata codes /\
      (List.length pending <= 1)%nat) /\
  (forall more dev d0 d1 inp0 data,
      respond _ (check_data dev) d0 = (inr data, d1) ->
      exists rest,
        fst (run respond (3 + more) (capture_loop dev) (World d0 inp0)) =
        Echeck_data dev (inr data) :: Eprint (hexdata data) :: Eflush
          :: rest).
Proof.
  intros Hrun.
  destruct (capture_conforms D respond fuel d inp) as [s' [Hsteps Hstand]].
  rewrite Hrun in Hsteps, Hstand. cbn [fst snd] in Hsteps, Hstand.
  split; [|split].
  - intros pre s post ->.
    apply steps_split in Hsteps.
    destruct Hsteps as (s1 & s2 & Hpre & Hstep & Hpost).
    inversion Hstep; subst.
    apply steps_last_inv in Hpre.
    destruct Hpre as [[_ Habs]|(pre' & sm & ev & -> & _ & Hlast)];
      [discriminate|].
    inversion Hlast; subst.
    exists dev, data, pre'. split; [reflexivity|]. split; [reflexivity|].
    split; [apply hexdata_pairs|]. split; [apply hexdata_line|].
    inversion Hpost as [|? ? ? ? ? Hs1 _]; subst; [auto|].
    inversion Hs1; subst. eauto.
  - pose proof (steps_history cstep capture_history capture_history_step
                  [] CStart tr s') as Hh.
    cbn [List.app] in Hh. specialize (Hh (conj eq_refl (conj eq_refl eq_refl)) Hsteps).
    assert (Hall : printed tr = List.map hexdata (captured tr) ->
              exists codes pending, captured tr = codes ++ pending /\
                printed tr = List.map hexdata codes /\
                (List.length pending <= 1)%nat).
    { intros Hp. exists (captured tr), []. rewrite List.app_nil_r. cbn. auto. }
    destruct s'; cbn [capture_history] in Hh.
    1-3: destruct Hh as (_ & Hp & Hc); apply Hall; rewrite Hp, Hc; reflexivity.
    1-2, 4-5: destruct Hh as (_ & Hp); apply Hall, Hp.
    + destruct Hh as (_ & codes & Hc & Hp). exists codes, [data]. cbn. auto.
    + destruct Hh as (_ & _ & Hp). apply Hall, Hp.
  - intros more dev d0 d1 inp0 data Hpoll.
    rewrite run_capture_loop, Hpoll. cbn [Nat.add emit].
    destruct (respond _ (enter_learning dev) d1) as [r' d2].
    destruct (emit more _ _) as [rest o']. cbn. eauto.
Qed.

(** C3: with a simulated device whose poll finds the storage empty twice
    and then returns the bytes 1a 2b, capture.py sleeps half a second after
    each empty poll without arming again, prints the one line [1a2b],
    flushes and arms once more; it prints nothing else however long it is
    observed.  For every device, learning mode is armed once at the start
    and once after each line printed. *)
Theorem capture_retry_then_print fuel inp (Hfuel : (13 <= fuel)%nat) :
  (let '(tr, o) :=
     run simulated fuel capture
       (World [inl StorageError; inl StorageError; inr [x1a; x2b]] inp) in
   List.firstn 11 tr =
     [ Ehello host (inr 0); Eauth 0 (inr tt); Eenter_learning 0 (inr tt);
       Echeck_data 0 (inl StorageError); Esleep (1 # 2);
       Echeck_data 0 (inl StorageError); Esleep (1 # 2);
       Echeck_data 0 (inr [x1a; x2b]); Eprint (lit "1a2b"); Eflush;
       Eenter_learning 0 (inr tt) ] /\
   printed tr = [lit "1a2b"] /\
   arms tr = 2%nat /\
   o = Running) /\
  (forall fuel' d inp',
      let tr := fst (run respond fuel' capture (World d inp')) in
      (arms tr <= S (List.length (printed tr)))%nat /\
      (List.length (printed tr) <= arms tr)%nat).
Proof.
  split.
  - replace fuel with (13 + (fuel - 13))%nat by lia.
    generalize (fuel - 13)%nat as f. intros f.
    rewrite run_capture. cbn [simulated emit Nat.add].
    rewrite run_capture_loop. cbn [simulated emit silent].
    rewrite run_capture_loop. cbn [simulated emit silent].
    rewrite run_capture_loop. cbn [simulated emit silent].
    destruct f as [|f]; cbn [silent]; [cbn; auto|].
    pose proof (simulated_idle f 0 inp) as Hidle.
    match goal with
    | |- context [run simulated f ?t ?w] =>
        change (run simulated f t w)
          with (run simulated f (capture_loop 0) (World [] inp))
    end.
    destruct (run simulated f (capture_loop 0) (World [] inp)) as [tr o].
    cbn [fst snd] in Hidle. destruct Hidle as (Hp & Ha & Ho).
    cbn [List.firstn printed arms]. rewrite Hp, Ha. auto.
  - intros fuel' d inp' tr.
    destruct (capture_conforms D respond fuel' d inp') as [s' [Hsteps _]].
    fold tr in Hsteps.
    pose proof (steps_history cstep capture_history capture_history_step
                  [] CStart tr s') as Hh.
    cbn [List.app] in Hh.
    specialize (Hh (conj eq_refl (conj eq_refl eq_refl)) Hsteps).
    destruct s'; cbn [capture_history] in Hh.
    1-3: destruct Hh as (Ha & Hp & _); rewrite Ha, Hp; cbn; lia.
    1-5: destruct Hh as (Ha & _); rewrite Ha; lia.
    destruct Hh as (Ha & Hb & _). lia.
Qed.

(** C2, as the code has it: the decoding of a stripped line fails exactly
    when the text is not a sequence of pairs of hexadecimal digits with
    ASCII whitespace before, between or after the pairs; on a text without
    ASCII whitespace that is exactly odd length or a character that is no
    hexadecimal digit.  When it fails, [ValueError] reaches the top
    level right after the line is read: nothing is sent, for this line or
    any later one. *)
Theorem send_decode_failure (line : str) :
  (fromhex (rstrip line) = None <-> ~ matches hex_input (rstrip line)) /\
  (List.existsb ascii_isspace (rstrip line) = false ->
   (fromhex (rstrip line) = None <-> odd_or_nonhex (rstrip line))) /\
  (fromhex (rstrip line) = None ->
   forall fuel dev d rest,
     run respond (S fuel) (send_loop dev) (World d (line :: rest)) =
     ([Ereadline (Some line)], Raised ValueError)).
Proof.
  split; [|split].
  - split.
    + intros Hnone Hm. apply matches_fromhex in Hm. congruence.
    + intros Hm. destruct (fromhex (rstrip line)) eqn:Hdec; [|reflexivity].
      exfalso. apply Hm, fromhex_matches. congruence.
  - apply fromhex_odd_or_nonhex.
  - intros Hnone fuel dev d rest.
    rewrite run_send_loop, Hnone. reflexivity.
Qed.

(** C5: with [1a2] as the first line of input, send.py never calls
    [send_data]; once the handshake has succeeded it stops right after
    reading the line, with [ValueError] and exit status 1. *)
Theorem send_odd_line fuel d line rest (Hline : rstrip line = lit "1a2") :
  let res := run respond fuel send (World d (line :: rest)) in
  sent (fst res) = [] /\
  (forall dev d0 d1,
      respond _ (hello host) d = (inr dev, d0) ->
      respond _ (auth dev) d0 = (inr tt, d1) ->
      (3 <= fuel)%nat ->
      res = ([Ehello host (inr dev); Eauth dev (inr tt);
              Ereadline (Some line)], Raised ValueError) /\
      exit_code (snd res) = Some 1).
Proof.
  assert (Hdec : fromhex (rstrip line) = None) by (rewrite Hline; reflexivity).
  cbv zeta. rewrite run_send.
  destruct (respond _ (hello host) d) as [r0 d0'].
  split.
  - destruct fuel as [|f1]; [reflexivity|]. cbn [emit].
    destruct r0 as [err|dev]; [reflexivity|].
    destruct (respond _ (auth dev) d0') as [r1 d1'].
    destruct f1 as [|f2]; [reflexivity|]. cbn [emit].
    destruct r1 as [err|[]]; [reflexivity|].
    rewrite run_send_loop, Hdec.
    destruct f2; reflexivity.
  - intros dev d0 d1 Hhello Hauth Hfuel.
    injection Hhello as -> ->. rewrite Hauth.
    destruct fuel as [|[|[|f]]]; try lia. cbn [emit].
    rewrite run_send_loop, Hdec. cbn [emit]. auto.
Qed.

Lemma rstrip_blank line :
  List.forallb isspace line = true -> rstrip line = [].
Proof.
  induction line as [|c line IH]; [reflexivity|].
  cbn [List.forallb rstrip]. intros H.
  apply andb_true_iff in H. destruct H as [Hc H].
  rewrite (IH H), Hc. reflexivity.
Qed.

(** C9: a line that is empty or made of whitespace only decodes to the
    empty byte sequence; [send_data] is called with that empty sequence,
    and when the call returns, [Sent] is printed and the loop goes on with
    the next line. *)
Theorem send_blank_line line (Hblank : List.forallb isspace line = true) :
  rstrip line = [] /\
  fromhex (rstrip line) = Some [] /\
  (forall fuel dev d rest,
      exists r tr,
        fst (run respond (2 + fuel) (send_loop dev) (World d (line :: rest)))
        = Ereadline (Some line) :: Esend_data dev [] r :: tr) /\
  (forall fuel dev d d1 rest,
      respond _ (send_data dev []) d = (inr tt, d1) ->
      run respond (4 + fuel) (send_loop dev) (World d (line :: rest)) =
      let '(tr, o) := run respond fuel (send_loop dev) (World d1 rest) in
      (Ereadline (Some line) :: Esend_data dev [] (inr tt)
         :: Eprint (lit "Sent") :: tr, o)).
Proof.
  pose proof (rstrip_blank line Hblank) as Hstrip.
  assert (Hdec : fromhex (rstrip line) = Some []) by (rewrite Hstrip; reflexivity).
  split; [exact Hstrip|]. split; [exact Hdec|]. split.
  - intros fuel dev d rest. rewrite run_send_loop, Hdec.
    destruct (respond _ (send_data dev []) d) as [r d1].
    cbn [Nat.add emit].
    destruct r as [err|[]].
    + exists (inl err), []. reflexivity.
    + destruct (emit fuel _ _) as [tr o]. exists (inr tt), tr. reflexivity.
  - intros fuel dev d d1 rest Hsend.
    rewrite run_send_loop, Hdec, Hsend. cbn [Nat.add emit silent].
    destruct (run respond fuel (send_loop dev) (World d1 rest)) as [tr o].
    reflexivity.
Qed.

(** C4: send.py takes the lines of its input in order and one at a time:
    when a line is read, every line read before it has been decoded, sent
    without error and confirmed; the payloads sent are the decodings of the
    lines read, in order.  With the input [1a2b] and [FF00], and a device
    that accepts the calls, [send_data] is called exactly twice, with the
    bytes 1a 2b and then ff 00, [Sent] is printed twice, and the end of the
    input ends the run with exit status 0. *)
Theorem send_in_order :
  (forall fuel d inp tr o,
      run respond fuel send (World d inp) = (tr, o) ->
      (exists rest, inp = lines_read tr ++ rest) /\
      (exists done pending,
          lines_read tr = done ++ pending /\
          List.map Some (sent tr) =
            List.map (fun line => fromhex (rstrip line)) done /\
          (List.length pending <= 1)%nat) /\
      (forall pre next post,
          tr = pre ++ Ereadline next :: post ->
          quiet pre /\
          List.map Some (sent pre) =
            List.map (fun line => fromhex (rstrip line)) (lines_read pre) /\
          printed pre =
            List.repeat (lit "Sent") (List.length (lines_read pre)))) /\
  (forall fuel d dev d0 d1 d2 d3,
      respond _ (hello host) d = (inr dev, d0) ->
      respond _ (auth dev) d0 = (inr tt, d1) ->
      respond _ (send_data dev [x1a; x2b]) d1 = (inr tt, d2) ->
      respond _ (send_data dev [xff; x00]) d2 = (inr tt, d3) ->
      (11 <= fuel)%nat ->
      let res :=
        run respond fuel send
          (World d (stdin_lines (lit "1a2b" ++ [10] ++ lit "FF00" ++ [10])))
      in
      res =
        ([ Ehello host (inr dev); Eauth dev (inr tt);
           Ereadline (Some (lit "1a2b" ++ [10]));
           Esend_data dev [x1a; x2b] (inr tt); Eprint (lit "Sent");
           Ereadline (Some (lit "FF00" ++ [10]));
           Esend_data dev [xff; x00] (inr tt); Eprint (lit "Sent");
           Ereadline None ], Returned tt) /\
      sent (fst res) = [[x1a; x2b]; [xff; x00]] /\
      printed (fst res) = [lit "Sent"; lit "Sent"] /\
      exit_code (snd res) = Some 0).
Proof.
  split.
  - intros fuel d inp tr o Hrun.
    destruct (send_conforms D respond fuel d inp) as [s' [Hsteps Hstand]].
    rewrite Hrun in Hsteps, Hstand. cbn [fst snd] in Hsteps, Hstand.
    assert (Hstart : send_history inp [] (SStart inp)).
    { cbn. repeat split; constructor. }
    pose proof (fun pre s => steps_history sstep (send_history inp)
                  (send_history_step inp) [] (SStart inp) pre s Hstart) as Hh.
    cbn [List.app] in Hh.
    assert (Hdone : forall l,
              List.map Some (sent tr) =
                List.map (fun line => fromhex (rstrip line)) (lines_read tr) ->
              l = lines_read tr ->
              exists done pending,
                l = done ++ pending /\
                List.map Some (sent tr) =
                  List.map (fun line => fromhex (rstrip line)) done /\
                (List.length pending <= 1)%nat).
    { intros l Hs ->. exists (lines_read tr), []. rewrite List.app_nil_r.
      cbn. auto. }
    split; [|split].
    + specialize (Hh tr s' Hsteps). destruct s'; cbn [send_history] in Hh.
      * destruct Hh as (_ & _ & Hr & _). exists inp. rewrite Hr. reflexivity.
      * destruct Hh as (_ & _ & Hr & _). exists inp. rewrite Hr. reflexivity.
      * destruct Hh as (Hl & _). eauto.
      * destruct Hh as (_ & done & line & Hr & Hl & _).
        exists lines. rewrite Hr, <- List.app_assoc. exact Hl.
      * destruct Hh as (Hl & _). eauto.
      * destruct Hh as (Hl & _). exists []. rewrite List.app_nil_r. exact Hl.
      * destruct Hh as (Hrest & _). exact Hrest.
    + specialize (Hh tr s' Hsteps). destruct s'; cbn [send_history] in Hh.
      * destruct Hh as (_ & _ & Hr & Hs & _). apply Hdone; [|reflexivity].
        rewrite Hr, Hs. reflexivity.
      * destruct Hh as (_ & _ & Hr & Hs & _). apply Hdone; [|reflexivity].
        rewrite Hr, Hs. reflexivity.
      * destruct Hh as (_ & _ & Hs & _). apply Hdone; [exact Hs|reflexivity].
      * destruct Hh as (_ & done & line & Hr & _ & _ & Hs & _).
        exists done, [line]. cbn. auto.
      * destruct Hh as (_ & _ & Hs & _). apply Hdone; [exact Hs|reflexivity].
      * destruct Hh as (_ & _ & Hs & _). apply Hdone; [exact Hs|reflexivity].
      * destruct Hh as (_ & Hrest). exact Hrest.
    + intros pre next post ->.
      apply steps_split in Hsteps.
      destruct Hsteps as (s1 & s2 & Hpre & Hstep & _).
      specialize (Hh pre s1 Hpre).
      inversion Hstep; subst; cbn [send_history] in Hh;
        destruct Hh as (_ & Hq & Hs & Hp); auto.
  - intros fuel d dev d0 d1 d2 d3 Hhello Hauth Hsend1 Hsend2 Hfuel.
    replace fuel with (11 + (fuel - 11))%nat by lia.
    generalize (fuel - 11)%nat as f. intros f. cbv zeta.
    rewrite run_send, Hhello. cbn [Nat.add emit]. rewrite Hauth.
    change (stdin_lines (lit "1a2b" ++ [10] ++ lit "FF00" ++ [10]))
      with [lit "1a2b" ++ [10]; lit "FF00" ++ [10]].
    rewrite run_send_loop.
    change (fromhex (rstrip (lit "1a2b" ++ [10]))) with (Some [x1a; x2b]).
    cbv beta iota. rewrite Hsend1. cbn [emit silent].
    rewrite run_send_loop.
    change (fromhex (rstrip (lit "FF00" ++ [10]))) with (Some [xff; x00]).
    cbv beta iota. rewrite Hsend2. cbn [emit silent].
    rewrite run_send_loop. cbn [emit].
    repeat split.
Qed.

End Loops.

(* ===================================================================== *)
(** * The theorems at concrete inputs *)
(* ===================================================================== *)

(** The line [1a 2b] has odd length and holds a space, and decodes. *)
Lemma send_decode_counterexample :
  ~ (fromhex (rstrip (lit "1a 2b" ++ [10])) = None <->
     odd_or_nonhex (rstrip (lit "1a 2b" ++ [10]))).
Proof.
  intros [_ H].
  assert (Hodd : odd_or_nonhex (rstrip (lit "1a 2b" ++ [10])))
    by (left; reflexivity).
  specialize (H Hodd). vm_compute in H. discriminate H.
Qed.

(** A device that returns an empty code makes capture.py print an empty
    line, which [^[0-9a-f]+$] does not match. *)
Lemma capture_output_counterexample :
  printed (fst (run simulated 6 capture (World [inr []] []))) = [[]] /\
  ~ matches hex_line [].
Proof. split; [reflexivity|exact empty_not_line]. Qed.

Lemma send_decode_failure_witness :
  odd_or_nonhex (rstrip (lit "1a2")) /\
  run simulated 5 (send_loop 0) (World [] [lit "1a2"]) =
  ([Ereadline (Some (lit "1a2"))], Raised ValueError).
Proof.
  pose proof (send_decode_failure _ simulated (lit "1a2")) as (_ & Hodd & Hrun).
  split.
  - apply Hodd; reflexivity.
  - exact (Hrun eq_refl 4%nat 0 [] []).
Defined.

Lemma capture_retry_then_print_witness :
  printed
    (fst (run simulated 20 capture
            (World [inl StorageError; inl StorageError; inr [x1a; x2b]] [])))
  = [lit "1a2b"].
Proof.
  assert (Hfuel : (13 <= 20)%nat) by lia.
  pose proof (capture_retry_then_print _ simulated 20 [] Hfuel) as [H _].
  destruct (run simulated 20 capture _) as [tr o].
  destruct H as (_ & Hp & _). exact Hp.
Defined.

Lemma send_in_order_witness :
  sent
    (fst (run simulated 11 send
            (World [] (stdin_lines (lit "1a2b" ++ [10] ++ lit "FF00" ++ [10])))))
  = [[x1a; x2b]; [xff; x00]].
Proof.
  assert (Hfuel : (11 <= 11)%nat) by lia.
  pose proof (proj2 (send_in_order _ simulated) 11%nat [] 0 [] [] [] []
                eq_refl eq_refl eq_refl eq_refl Hfuel) as (_ & H & _).
  exact H.
Defined.

Lemma send_odd_line_witness :
  run simulated 5 send (World [] [lit "1a2" ++ [10]]) =
  ([Ehello host (inr 0); Eauth 0 (inr tt);
    Ereadline (Some (lit "1a2" ++ [10]))], Raised ValueError).
Proof.
  assert (Hfuel : (3 <= 5)%nat) by lia.
  pose proof (send_odd_line _ simulated 5 [] (lit "1a2" ++ [10]) [] eq_refl)
    as [_ H].
  exact (proj1 (H 0 [] [] eq_refl eq_refl Hfuel)).
Defined.

Lemma capture_fail_fast_witness :
  run simulated (7 + 5) capture
    (World [inl StorageError; inl (Exception "ReadError")] []) =
  run simulated 7 capture
    (World [inl StorageError; inl (Exception "ReadError")] []) /\
  exists dev r rest,
    fst (run simulated (4 + 3) capture
           (World [inl StorageError; inl (Exception "ReadError")] [])) =
    [ Ehello host (inr 0); Eauth 0 (inr tt); Eenter_learning 0 (inr tt) ]
    ++ Echeck_data 0 (inl StorageError)
    :: Esleep (1 # 2) :: Echeck_data dev r :: rest.
Proof.
  split.
  - destruct (capture_fail_fast _ simulated 7
                [inl StorageError; inl (Exception "ReadError")] []
                [ Ehello host (inr 0); Eauth 0 (inr tt);
                  Eenter_learning 0 (inr tt);
                  Echeck_data 0 (inl StorageError); Esleep (1 # 2);
                  Echeck_data 0 (inl (Exception "ReadError")) ]
                (Raised (Exception "ReadError")) eq_refl
                [ Ehello host (inr 0); Eauth 0 (inr tt);
                  Eenter_learning 0 (inr tt);
                  Echeck_data 0 (inl StorageError); Esleep (1 # 2) ]
                (Echeck_data 0 (inl (Exception "ReadError"))) []
                (Exception "ReadError") eq_refl eq_refl)
      as [[[dev Hev] _]|(_ & _ & _ & _ & Hstable)].
    + discriminate Hev.
    + rewrite (Hstable 5%nat). reflexivity.
  - destruct (capture_fail_fast _ simulated 4
                [inl StorageError; inl (Exception "ReadError")] []
                [ Ehello host (inr 0); Eauth 0 (inr tt);
                  Eenter_learning 0 (inr tt);
                  Echeck_data 0 (inl StorageError) ]
                Running eq_refl
                [ Ehello host (inr 0); Eauth 0 (inr tt);
                  Eenter_learning 0 (inr tt) ]
                (Echeck_data 0 (inl StorageError)) []
                StorageError eq_refl eq_refl)
      as [(_ & _ & Hlive)|(Hne & _)].
    + exact Hlive.
    + exfalso. exact (Hne 0 eq_refl).
Defined.

Lemma capture_output_lines_witness :
  matches hex_pairs (lit "1a2b").
Proof.
  destruct (capture_output_lines _ simulated 7 [inr [x1a; x2b]] []
              [ Ehello host (inr 0); Eauth 0 (inr tt);
                Eenter_learning 0 (inr tt);
                Echeck_data 0 (inr [x1a; x2b]); Eprint (lit "1a2b"); Eflush;
                Eenter_learning 0 (inr tt) ]
              Running eq_refl) as (H & _).
  destruct (H [ Ehello host (inr 0); Eauth 0 (inr tt);
                Eenter_learning 0 (inr tt); Echeck_data 0 (inr [x1a; x2b]) ]
              (lit "1a2b") [Eflush; Eenter_learning 0 (inr tt)] eq_refl)
    as (dev & data & pre' & _ & _ & Hm & _).
  exact Hm.
Defined.

Lemma send_blank_line_witness :
  rstrip [32; 10] = [] /\
  run simulated 4 (send_loop 0) (World [] [[32; 10]]) =
  ([Ereadline (Some [32; 10]); Esend_data 0 [] (inr tt); Eprint (lit "Sent")],
   Running).
Proof.
  pose proof (send_blank_line _ simulated [32; 10] eq_refl)
    as (Hstrip & _ & _ & Hrun).
  split; [exact Hstrip|].
  exact (Hrun 0%nat 0 [] [] [] eq_refl).
Defined.

(* ===================================================================== *)
(** * Further properties of the two scripts *)
(* ===================================================================== *)

(** ** Decoding *)

Lemma fromhex_app a b x :
  fromhex a = Some x ->
  fromhex (a ++ b) =
  match fromhex b with
  | Some y => Some (x ++ y)
  | None => None
  end.
Proof.
  revert a x.
  apply (str_pair_ind (fun a => forall x, fromhex a = Some x ->
           fromhex (a ++ b) =
           match fromhex b with Some y => Some (x ++ y) | None => None end));
    [ | intros c | intros c d s IHs IHd ]; intros x.
  - intros H. injection H as <-. cbn [List.app]. destruct (fromhex b); reflexivity.
  - cbn [fromhex List.app]. destruct (ascii_isspace c) eqn:Hs.
    + intros H. injection H as <-. destruct (fromhex b); reflexivity.
    + destruct (16 <=? digit_value c); discriminate.
  - destruct (ascii_isspace c) eqn:Hs.
    + change ((c :: d :: s) ++ b) with (c :: (d :: s) ++ b).
      rewrite !(fromhex_space _ _ Hs). apply IHd.
    + destruct (any_hex c) eqn:Hc;
        [|rewrite (fromhex_bad _ _ Hs Hc); discriminate].
      destruct (any_hex d) eqn:Hd;
        [|rewrite (fromhex_bad_second _ _ _ Hs Hd); discriminate].
      change ((c :: d :: s) ++ b) with (c :: d :: s ++ b).
      rewrite !(fromhex_pair _ _ _ Hc Hd).
      destruct (fromhex s) as [x'|] eqn:Hx; [|discriminate].
      intros H. injection H as <-. rewrite (IHs x' eq_refl).
      destruct (fromhex b); reflexivity.
Qed.

Lemma rstrip_app_blank s ws :
  List.forallb isspace ws = true -> rstrip (s ++ ws) = rstrip s.
Proof.
  intros Hws. induction s as [|c s IH].
  - cbn [List.app rstrip].
    induction ws as [|w ws IHw]; [reflexivity|].
    cbn [List.forallb] in Hws. apply andb_true_iff in Hws.
    destruct Hws as [Hw Hws]. cbn [rstrip]. rewrite (IHw Hws), Hw. reflexivity.
  - cbn [List.app rstrip]. rewrite IH. reflexivity.
Qed.

(** X1: decoding goes through concatenation: a text that decodes, followed
    by any text, decodes to the bytes of the first followed by the bytes of
    the second, and fails exactly when the second fails; in particular an
    ASCII whitespace character between two such texts changes nothing. *)
Theorem fromhex_concat (a b : str) (x : bytes) (Ha : fromhex a = Some x) :
  fromhex (a ++ b) =
    match fromhex b with
    | Some y => Some (x ++ y)
    | None => None
    end /\
  (forall c, ascii_isspace c = true -> fromhex (a ++ c :: b) = fromhex (a ++ b)).
Proof.
  split; [apply fromhex_app, Ha|].
  intros c Hc. rewrite !(fromhex_app _ _ _ Ha), (fromhex_space _ _ Hc).
  reflexivity.
Qed.

(** X2: whitespace of any kind at the end of a line, the newline
    included, does not change what send.py decodes from it. *)
Theorem send_ignores_trailing_space (line ws : str)
    (Hws : List.forallb isspace ws = true) :
  fromhex (rstrip (line ++ ws)) = fromhex (rstrip line).
Proof. rewrite (rstrip_app_blank _ _ Hws). reflexivity. Qed.

(** X3: two different codes never print as the same line. *)
Theorem hexdata_injective (A B : bytes) (Hneq : A <> B) :
  hexdata A <> hexdata B.
Proof.
  intros H. apply Hneq.
  pose proof (fromhex_hexdata A) as HA. rewrite H, fromhex_hexdata in HA.
  congruence.
Qed.

Lemma any_hex_enum c :
  any_hex c = true ->
  List.In c [48; 49; 50; 51; 52; 53; 54; 55; 56; 57;
             65; 66; 67; 68; 69; 70; 97; 98; 99; 100; 101; 102].
Proof.
  unfold any_hex, lower_hex. cbn [List.In]. intros Hany.
  assert (Hr : (48 <= c <= 57) \/ (97 <= c <= 102) \/ (65 <= c <= 70)).
  { revert Hany.
    destruct (N.leb_spec 48 c), (N.leb_spec c 57), (N.leb_spec 97 c),
      (N.leb_spec c 102), (N.leb_spec 65 c), (N.leb_spec c 70);
      cbn; intros Hany; try discriminate Hany; lia. }
  lia.
Qed.

Lemma hexdata_pair c d :
  any_hex c = true -> any_hex d = true ->
  hexdata [byte_of_nibbles (digit_value c) (digit_value d)] =
  [ascii_lower c; ascii_lower d].
Proof.
  intros Hc Hd. apply any_hex_enum in Hc, Hd. cbn [List.In] in Hc, Hd.
  repeat (destruct Hc as [<-|Hc]; [|]); try contradiction;
  repeat (destruct Hd as [<-|Hd]; [|]); try contradiction; reflexivity.
Qed.

(** X4: rendering the bytes a text decodes to gives the text back in its
    normal form: letters in lowercase and ASCII whitespace removed. *)
Theorem hexdata_fromhex (s : str) (B : bytes) (Hs : fromhex s = Some B) :
  hexdata B =
  List.map ascii_lower (List.filter (fun c => negb (ascii_isspace c)) s).
Proof.
  revert s B Hs.
  apply (str_pair_ind (fun s => forall B, fromhex s = Some B ->
           hexdata B =
           List.map ascii_lower
             (List.filter (fun c => negb (ascii_isspace c)) s)));
    [ | intros c | intros c d s IHs IHd ]; intros B.
  - intros H. injection H as <-. reflexivity.
  - cbn [fromhex List.filter]. destruct (ascii_isspace c) eqn:Hs.
    + intros H. injection H as <-. reflexivity.
    + destruct (16 <=? digit_value c); discriminate.
  - destruct (ascii_isspace c) eqn:Hs.
    + rewrite (fromhex_space _ _ Hs). intros H.
      cbn [List.filter]. rewrite Hs. cbn [negb]. apply (IHd _ H).
    + destruct (any_hex c) eqn:Hc;
        [|rewrite (fromhex_bad _ _ Hs Hc); discriminate].
      destruct (any_hex d) eqn:Hd;
        [|rewrite (fromhex_bad_second _ _ _ Hs Hd); discriminate].
      rewrite (fromhex_pair _ _ _ Hc Hd).
      destruct (fromhex s) as [B'|] eqn:HB; [|discriminate].
      intros H. injection H as <-.
      cbn [List.filter]. rewrite Hs, (any_hex_not_space _ Hd).
      cbn [negb List.map]. rewrite <- (IHs B' eq_refl).
      change (?x :: B') with ([x] ++ B').
      rewrite hexdata_app, (hexdata_pair _ _ Hc Hd). reflexivity.
Qed.

(** ** The loops *)

(** Every event of an allowed trace is the label of a step. *)
Lemma steps_labels {state : Type} (step : state -> event -> state -> Prop)
    s tr s' :
  steps step s tr s' ->
  List.Forall (fun ev => exists s1 s2, step s1 ev s2) tr.
Proof.
  induction 1 as [|s ev s1 tr s' Hstep _ IH]; constructor; eauto.
Qed.

Section Extras.

Variable D : Type.
Variable respond : forall T, broadlinkE T -> D -> T * D.

(** X5: send.py has no error handling at all: a library call that raises,
    [hello], [auth] or [send_data], is the last thing it does; the
    exception reaches the top level, the exit status is 1, and the lines
    left on the input are never read. *)
Theorem send_fail_fast fuel d inp tr o
    (Hrun : run respond fuel send (World d inp) = (tr, o))
    pre ev post err
    (Hsplit : tr = pre ++ ev :: post) (Hraised : raised ev = Some err) :
  post = [] /\ o = Raised err /\ exit_code o = Some 1 /\
  forall more, run respond (fuel + more) send (World d inp) = (tr, o).
Proof.
  subst tr.
  destruct (send_conforms D respond fuel d inp) as [s' [Hsteps Hstand]].
  rewrite Hrun in Hsteps, Hstand. cbn [fst snd] in Hsteps, Hstand.
  apply steps_split in Hsteps.
  destruct Hsteps as (s1 & s2 & _ & Hstep & Hpost).
  assert (Hs2 : s2 = SFailed err).
  { inversion Hstep; subst; cbn in Hraised; congruence. }
  subst s2. apply sfailed_final in Hpost. destruct Hpost as [-> ->].
  cbn in Hstand. subst o. repeat split.
  intros more. apply run_stable; [exact Hrun|discriminate].
Qed.

Lemma send_loop_terminates inp :
  forall fuel dev d,
    (4 * List.length inp + 1 <= fuel)%nat ->
    snd (run respond fuel (send_loop dev) (World d inp)) <> Running.
Proof.
  induction inp as [|line rest IH]; intros fuel dev d Hfuel;
    rewrite run_send_loop; cbn [List.length] in Hfuel.
  - destruct fuel as [|f]; [lia|]. cbn. discriminate.
  - destruct fuel as [|[|[|[|f]]]]; try lia. cbn [emit].
    destruct (fromhex (rstrip line)) as [data|]; [|cbn; discriminate].
    destruct (respond _ (send_data dev data) d) as [r d1]. cbn [emit].
    destruct r as [err|[]]; [cbn; discriminate|]. cbn [emit silent].
    specialize (IH f dev d1 ltac:(lia)).
    destruct (run respond f (send_loop dev) (World d1 rest)) as [tr o].
    exact IH.
Qed.

(** X6: send.py stops on every finite input, whatever the device does:
    observed for four steps per line and three more, it has returned or
    raised. *)
Theorem send_terminates fuel d inp
    (Hfuel : (4 * List.length inp + 3 <= fuel)%nat) :
  snd (run respond fuel send (World d inp)) <> Running.
Proof.
  rewrite run_send.
  destruct (respond _ (hello host) d) as [r0 d0].
  destruct fuel as [|[|f]]; try lia. cbn [emit].
  destruct r0 as [err|dev]; [cbn; discriminate|].
  destruct (respond _ (auth dev) d0) as [r1 d1]. cbn [emit].
  destruct r1 as [err|[]]; [cbn; discriminate|].
  pose proof (send_loop_terminates inp f dev d1 ltac:(lia)) as Hloop.
  destruct (run respond f (send_loop dev) (World d1 inp)) as [tr o].
  exact Hloop.
Qed.

(** X7: when send.py ends normally it has read every line of the input,
    every line decoded, every decoded line was sent without error, in
    order, and [Sent] was printed once per line. *)
Theorem send_normal_end fuel d inp tr
    (Hrun : run respond fuel send (World d inp) = (tr, Returned tt)) :
  lines_read tr = inp /\
  List.map Some (sent tr) =
    List.map (fun line => fromhex (rstrip line)) inp /\
  printed tr = List.repeat (lit "Sent") (List.length inp) /\
  quiet tr.
Proof.
  destruct (send_conforms D respond fuel d inp) as [s' [Hsteps Hstand]].
  rewrite Hrun in Hsteps, Hstand. cbn [fst snd] in Hsteps, Hstand.
  assert (Hstart : send_history inp [] (SStart inp)).
  { cbn. repeat split; constructor. }
  pose proof (steps_history sstep (send_history inp)
                (send_history_step inp) [] (SStart inp) tr s' Hstart Hsteps)
    as Hh.
  cbn [List.app] in Hh.
  destruct s'; cbn [sstanding] in Hstand; try discriminate Hstand.
  cbn [send_history] in Hh. destruct Hh as (Hl & Hq & Hs & Hp).
  rewrite <- Hl in *. auto.
Qed.



(** X9: capture.py never reads standard input and never transmits;
    its only events are the handshake, arming, polling, sleeping, printing
    and flushing. *)
Theorem capture_events_only fuel d inp :
  let tr := fst (run respond fuel capture (World d inp)) in
  List.Forall capture_event tr /\ lines_read tr = [] /\ sent tr = [].
Proof.
  intros tr.
  destruct (capture_conforms D respond fuel d inp) as [s' [Hsteps _]].
  fold tr in Hsteps. apply steps_labels in Hsteps.
  assert (Hall : List.Forall capture_event tr).
  { eapply List.Forall_impl; [|exact Hsteps].
    intros ev (s1 & s2 & Hstep). destruct Hstep; exact I. }
  split; [exact Hall|].
  clear Hsteps. induction Hall as [|ev tr' Hev _ [IH1 IH2]]; [auto|].
  destruct ev as [? ?|? ?|? ?|? ?|? ? ?|?|?| |?]; cbn in Hev |- *;
    try contradiction; auto.
Qed.

(** X10: send.py never arms learning mode, never polls, never sleeps and
    never flushes its output; its only events are the handshake, reading a
    line, sending and printing. *)
Theorem send_events_only fuel d inp :
  let tr := fst (run respond fuel send (World d inp)) in
  List.Forall send_event tr /\ arms tr = O /\ polls tr = O /\
  ~ List.In Eflush tr.
Proof.
  intros tr.
  destruct (send_conforms D respond fuel d inp) as [s' [Hsteps _]].
  fold tr in Hsteps. apply steps_labels in Hsteps.
  assert (Hall : List.Forall send_event tr).
  { eapply List.Forall_impl; [|exact Hsteps].
    intros ev (s1 & s2 & Hstep). destruct Hstep; exact I. }
  split; [exact Hall|].
  clear Hsteps. induction Hall as [|ev tr' Hev _ (IH1 & IH2 & IH3)];
    [cbn; auto|].
  destruct ev as [? ?|? ?|? ?|? ?|? ? ?|?|?| |?]; cbn in Hev |- *;
    try contradiction; repeat split; auto;
    intros [Habs|Hin]; try discriminate Habs; auto.
Qed.

(** X11: capture.py sleeps only right after a poll that found the storage
    empty, and always for half a second. *)
Theorem capture_sleeps fuel d inp tr o
    (Hrun : run respond fuel capture (World d inp) = (tr, o))
    pre secs post (Hsplit : tr = pre ++ Esleep secs :: post) :
  secs = (1 # 2)%Q /\
  exists pre' dev, pre = pre' ++ [Echeck_data dev (inl StorageError)].
Proof.
  subst tr.
  destruct (capture_conforms D respond fuel d inp) as [s' [Hsteps _]].
  rewrite Hrun in Hsteps. cbn [fst] in Hsteps.
  apply steps_split in Hsteps.
  destruct Hsteps as (s1 & s2 & Hpre & Hstep & _).
  inversion Hstep; subst. split; [reflexivity|].
  apply steps_last_inv in Hpre.
  destruct Hpre as [[_ Habs]|(pre' & sm & ev & -> & _ & Hlast)];
    [discriminate|].
  inversion Hlast; subst. eauto.
Qed.

(** The lines capture.py has printed render codes it has captured. *)
Lemma capture_printed_codes fuel d inp tr o :
  run respond fuel capture (World d inp) = (tr, o) ->
  exists codes pending,
    captured tr = codes ++ pending /\ printed tr = List.map hexdata codes.
Proof.
  intros Hrun.
  destruct (capture_conforms D respond fuel d inp) as [s' [Hsteps _]].
  rewrite Hrun in Hsteps. cbn [fst] in Hsteps.
  pose proof (steps_history cstep capture_history capture_history_step
                [] CStart tr s') as Hh.
  cbn [List.app] in Hh.
  specialize (Hh (conj eq_refl (conj eq_refl eq_refl)) Hsteps).
  assert (Hall : printed tr = List.map hexdata (captured tr) ->
            exists codes pending,
              captured tr = codes ++ pending /\
              printed tr = List.map hexdata codes).
  { intros Hp. exists (captured tr), []. rewrite List.app_nil_r. auto. }
  destruct s'; cbn [capture_history] in Hh.
  1-3: destruct Hh as (_ & Hp & Hc); apply Hall; rewrite Hp, Hc; reflexivity.
  1-2, 4-5: destruct Hh as (_ & Hp); apply Hall, Hp.
  - destruct Hh as (_ & codes & Hc & Hp). exists codes, [data]. auto.
  - destruct Hh as (_ & _ & Hp). apply Hall, Hp.
Qed.

Section Replay.

(** A second device, the one send.py talks to. *)
Variable D' : Type.
Variable respond' : forall T, broadlinkE T -> D' -> T * D'.

Lemma send_loop_codes (Hdev : accepts_all respond') codes :
  forall fuel dev d,
    (4 * List.length codes + 1 <= fuel)%nat ->
    sent (fst (run respond' fuel (send_loop dev)
                 (World d (List.map (fun c => print_line (hexdata c)) codes))))
    = codes /\
    snd (run respond' fuel (send_loop dev)
           (World d (List.map (fun c => print_line (hexdata c)) codes)))
    = Returned tt.
Proof.
  destruct Hdev as (_ & _ & Hsend).
  induction codes as [|c codes IH]; intros fuel dev d Hfuel;
    rewrite run_send_loop; cbn [List.length List.map] in *.
  - destruct fuel as [|f]; [lia|]. cbn. auto.
  - assert (Hdec : fromhex (rstrip (print_line (hexdata c))) = Some c).
    { unfold print_line. rewrite rstrip_app_newline; [apply fromhex_hexdata|].
      eapply List.Forall_impl; [|apply hexdata_lower].
      intros ch Hch. apply lower_hex_not_space, Hch. }
    rewrite Hdec.
    pose proof (Hsend dev c d) as Hok.
    destruct (respond' _ (send_data dev c) d) as [r d1]. cbn [fst] in Hok.
    subst r.
    destruct fuel as [|[|[|[|f]]]]; try lia. cbn [emit silent].
    destruct (IH f dev d1 ltac:(lia)) as [Hs Ho].
    destruct (run respond' f (send_loop dev) _) as [tr o].
    cbn [fst snd sent] in *. rewrite Hs. auto.
Qed.

(** X12: what capture.py prints, send.py transmits: fed the lines printed
    in any run of capture.py, and talking to a device that accepts its
    calls, send.py sends exactly the codes that were captured and printed,
    in order, and ends normally. *)
Theorem capture_then_send (Hdev : accepts_all respond')
    fuel d inp tr o
    (Hrun : run respond fuel capture (World d inp) = (tr, o))
    fuel' d'
    (Hfuel : (4 * List.length (printed tr) + 3 <= fuel')%nat) :
  let res :=
    run respond' fuel' send (World d' (List.map print_line (printed tr))) in
  sent (fst res) = List.firstn (List.length (printed tr)) (captured tr) /\
  snd res = Returned tt.
Proof.
  destruct (capture_printed_codes fuel d inp tr o Hrun)
    as (codes & pending & Hc & Hp).
  rewrite Hc, Hp in *. rewrite List.length_map in *.
  rewrite List.firstn_app, Nat.sub_diag, List.firstn_all. cbn [List.firstn].
  rewrite List.app_nil_r, List.map_map.
  cbv zeta. rewrite run_send.
  pose proof Hdev as (Hhello & Hauth & _).
  destruct (Hhello host d') as [dev Hh].
  destruct (respond' _ (hello host) d') as [r0 d0]. cbn [fst] in Hh. subst r0.
  pose proof (Hauth dev d0) as Ha.
  destruct (respond' _ (auth dev) d0) as [r1 d1]. cbn [fst] in Ha. subst r1.
  destruct fuel' as [|[|f]]; try lia. cbn [emit].
  destruct (send_loop_codes Hdev codes f dev d1 ltac:(lia)) as [Hs Ho].
  destruct (run respond' f (send_loop dev) _) as [tr' o'].
  cbn [fst snd sent] in *. auto.
Qed.

End Replay.

End Extras.

(** ** The further properties at concrete inputs *)

Lemma simulated_accepts_all : accepts_all simulated.
Proof.
  repeat split.
  - intros h d. exists 0. reflexivity.
Qed.


Lemma fromhex_concat_witness :
  fromhex (lit "1a" ++ lit " 2b") = Some [x1a; x2b].
Proof.
  exact (proj1 (fromhex_concat (lit "1a") (lit " 2b") [x1a] eq_refl)).
Defined.

Lemma send_ignores_trailing_space_witness :
  fromhex (rstrip (lit "1a2b" ++ [32; 13; 10])) = Some [x1a; x2b].
Proof.
  rewrite (send_ignores_trailing_space (lit "1a2b") [32; 13; 10] eq_refl).
  reflexivity.
Defined.

Lemma hexdata_injective_witness : hexdata [x1a] <> hexdata [x2b].
Proof.
  apply hexdata_injective. intros H. discriminate H.
Defined.

Lemma hexdata_fromhex_witness : hexdata [x1a; x2b] = lit "1a2b".
Proof.
  exact (hexdata_fromhex (lit "1A 2b") [x1a; x2b] eq_refl).
Defined.

Lemma send_fail_fast_witness :
  run unreachable (1 + 9) send (World tt [lit "1a2b"]) =
  ([Ehello host (inl (Exception "NetworkTimeoutError"))],
   Raised (Exception "NetworkTimeoutError")).
Proof.
  destruct (send_fail_fast _ unreachable 1 tt [lit "1a2b"]
              [Ehello host (inl (Exception "NetworkTimeoutError"))]
              (Raised (Exception "NetworkTimeoutError")) eq_refl
              [] (Ehello host (inl (Exception "NetworkTimeoutError"))) []
              (Exception "NetworkTimeoutError") eq_refl eq_refl)
    as (_ & _ & _ & Hstable).
  exact (Hstable 9%nat).
Defined.

Lemma send_terminates_witness :
  snd (run simulated 7 send (World [] [lit "1a2b"])) <> Running.
Proof.
  assert (Hfuel : (4 * List.length [lit "1a2b"] + 3 <= 7)%nat) by (cbn; lia).
  exact (send_terminates _ simulated 7 [] [lit "1a2b"] Hfuel).
Defined.

Lemma send_normal_end_witness :
  List.map Some [[x1a; x2b]] =
  List.map (fun line => fromhex (rstrip line)) [lit "1a2b" ++ [10]].
Proof.
  destruct (send_normal_end _ simulated 7 [] [lit "1a2b" ++ [10]]
              [ Ehello host (inr 0); Eauth 0 (inr tt);
                Ereadline (Some (lit "1a2b" ++ [10]));
                Esend_data 0 [x1a; x2b] (inr tt); Eprint (lit "Sent");
                Ereadline None ] eq_refl) as (_ & Hs & _).
  exact Hs.
Defined.


Lemma capture_sleeps_witness :
  exists pre' dev,
    [ Ehello host (inr 0); Eauth 0 (inr tt); Eenter_learning 0 (inr tt);
      Echeck_data 0 (inl StorageError) ]
    = pre' ++ [Echeck_data dev (inl StorageError)].
Proof.
  exact (proj2 (capture_sleeps _ idle_device 5 tt []
                  [ Ehello host (inr 0); Eauth 0 (inr tt);
                    Eenter_learning 0 (inr tt);
                    Echeck_data 0 (inl StorageError); Esleep (1 # 2) ]
                  Running eq_refl
                  [ Ehello host (inr 0); Eauth 0 (inr tt);
                    Eenter_learning 0 (inr tt);
                    Echeck_data 0 (inl StorageError) ]
                  (1 # 2)%Q [] eq_refl)).
Defined.

Lemma capture_then_send_witness :
  sent (fst (run simulated 7 send (World [] [print_line (lit "1a2b")])))
  = [[x1a; x2b]].
Proof.
  assert (Hfuel : (4 * 1 + 3 <= 7)%nat) by lia.
  exact (proj1 (capture_then_send _ simulated _ simulated
                  simulated_accepts_all 7 [inr [x1a; x2b]] []
                  [ Ehello host (inr 0); Eauth 0 (inr tt);
                    Eenter_learning 0 (inr tt);
                    Echeck_data 0 (inr [x1a; x2b]); Eprint (lit "1a2b");
                    Eflush; Eenter_learning 0 (inr tt) ]
                  Running eq_refl 7%nat [] Hfuel)).
Defined.
